(** * file-catalog: the indexed record store, search, duplicate grouping
      and highlight rendering of [main.go], embedded and verified.

    The Go program keeps a catalogue of files in four maps ([DB.Files],
    [DB.Sizes], [DB.Hashes], [DB.SearchTerms]), loads and writes it as CSV
    rows, reconciles it with directory listings, searches it by name tokens
    and groups duplicate candidates for interactive deletion.

    Conventions of the embedding:
    - Go [string] is [string] (a sequence of bytes); [ID] is [string].
    - Go [int] is [Z]; the 64-bit range is the predicate [int_range].
    - Go maps are [gmap]s.  A [for ... range m] loop visits the entries in
      an order the runtime chooses: every such loop takes its order from a
      [RangeOrder], and the theorems hold for all of them.
    - Calls into the operating system (directory walk, stat, reading and
      hashing, removal) and into the [Output] interface are collaborators:
      their results are inputs of the model ([FS], the list of scanned
      lines) and what is printed is collected in [DB.output].
    - A run-time panic (index out of range) is the result [Panic]. *)

From Stdlib Require Import ZArith NArith Ascii String DecimalString DecimalPos DecimalN DecimalZ.
From stdpp Require Import base gmap sets list strings sorting.

Local Open Scope Z_scope.
Local Open Scope string_scope.

(** ** Library functions of [strings], [strconv] and [path/filepath] *)

Module GoString.

(** [unicode.ToLower] on one byte of ASCII text. *)
Definition lower_ascii (c : ascii) : ascii :=
  let n := N_of_ascii c in
  if ((65 <=? n) && (n <=? 90))%N then ascii_of_N (n + 32) else c.

(** [strings.ToLower] on ASCII text: bytes outside ['A'..'Z'] are kept. *)
Fixpoint ToLower (s : string) : string :=
  match s with
  | EmptyString => EmptyString
  | String c s' => String (lower_ascii c) (ToLower s')
  end.

(** The ASCII white space of [unicode.IsSpace]: tab, new line, vertical tab,
    form feed, carriage return and space. *)
Definition isSpace (c : ascii) : bool :=
  let n := N_of_ascii c in
  (((9 <=? n) && (n <=? 13)) || (n =? 32))%N.

Fixpoint trimLeft (s : string) : string :=
  match s with
  | EmptyString => EmptyString
  | String c s' => if isSpace c then trimLeft s' else s
  end.

Fixpoint trimRight (s : string) : string :=
  match s with
  | EmptyString => EmptyString
  | String c s' =>
      match trimRight s' with
      | EmptyString => if isSpace c then EmptyString else String c EmptyString
      | r => String c r
      end
  end.

(** [strings.TrimSpace]. *)
Definition TrimSpace (s : string) : string := trimRight (trimLeft s).

(** [strings.Split(s, sep)] for a one-byte separator: one more piece than
    there are separators, so never the empty list. *)
Fixpoint Split (sep : ascii) (s : string) : list string :=
  match s with
  | EmptyString => [EmptyString]
  | String c s' =>
      if Ascii.eqb c sep then EmptyString :: Split sep s'
      else match Split sep s' with
           | piece :: rest => String c piece :: rest
           | [] => [String c EmptyString]
           end
  end.

(** [strings.Index(s, substr)]: the first byte offset of [substr] in [s];
    [None] stands for Go's [-1]. *)
Definition Index (s substr : string) : option nat := String.index 0 substr s.

(** [strings.Contains(s, substr)]. *)
Definition Contains (s substr : string) : bool := bool_decide (is_Some (Index s substr)).

(** [strings.HasPrefix(s, prefix)]. *)
Definition HasPrefix (s pre : string) : bool := String.prefix pre s.

(** The slice expression [s[lo:hi]] for [lo <= hi <= len(s)]. *)
Definition slice (s : string) (lo hi : nat) : string := substring lo (hi - lo) s.

(** The slice expression [s[lo:]]. *)
Definition sliceFrom (s : string) (lo : nat) : string := substring lo (String.length s - lo) s.

(** [filepath.Split(path)] with the separator ['/']: the directory, with
    its final separator, and the file name after it. *)
Definition filepath_Split (path : string) : string * string :=
  let file := List.last (Split "/" path) EmptyString in
  (substring 0 (String.length path - String.length file) path, file).

(** Go's [int] is 64 bits wide. *)
Definition int_range (z : Z) : Prop := - 2 ^ 63 <= z < 2 ^ 63.

(** [strconv.Itoa]: decimal digits, with a leading ['-'] below zero. *)
Definition Itoa (z : Z) : string := NilZero.string_of_int (Z.to_int z).

(** [strconv.ParseUint(s, 10, _)] before its range check: a non-empty run
    of decimal digits. *)
Definition parseDigits (s : string) : option N :=
  N.of_uint <$> NilZero.uint_of_string s.

(** [strconv.Atoi]: an optional sign, then digits; [None] is the error
    (syntax, or a value outside [int]). *)
Definition Atoi (s : string) : option Z :=
  match s with
  | EmptyString => None
  | String c rest =>
      if Ascii.eqb c "-" then
        n ← parseDigits rest;
        if (n <=? 2 ^ 63)%N then Some (- Z.of_N n) else None
      else
        n ← parseDigits (if Ascii.eqb c "+" then rest else s);
        if (n <? 2 ^ 63)%N then Some (Z.of_N n) else None
  end.

End GoString.

Export GoString.

Local Open Scope list_scope.

(** ** Sorting

    [sort.Slice] and [slices.Sort] as the insertion sort Go runs on short
    slices: every element is moved left past the elements it is [less]
    than, so elements that compare equal keep their order. *)

Section Sorting.
Context {A : Type} (less : A → A → bool).

Fixpoint insert_sorted (x : A) (l : list A) : list A :=
  match l with
  | [] => [x]
  | y :: l' => if less x y then x :: y :: l' else y :: insert_sorted x l'
  end.

Definition insertion_sort (l : list A) : list A :=
  foldl (λ sorted x, insert_sorted x sorted) [] l.
End Sorting.

(** ** Iteration order of [range] over a map *)

(** The order in which one [range] loop visits the entries of a map: some
    rearrangement of the entries.  The Go runtime picks it; nothing in the
    program may depend on it. *)
Record RangeOrder := {
  shuffle : ∀ A : Type, list A → list A;
  shuffle_perm : ∀ (A : Type) (l : list A), shuffle A l ≡ₚ l
}.
Arguments shuffle _ {A} _.

Definition natural_order : RangeOrder :=
  {| shuffle := λ _ l, l; shuffle_perm := λ _ l, reflexivity l |}.

Definition reverse_order : RangeOrder :=
  {| shuffle := λ _ l, reverse l; shuffle_perm := λ _ l, reverse_Permutation l |}.

(** The entries of a map, as one [range] loop yields them. *)
Definition range `{Countable K} {V} (ro : RangeOrder) (m : gmap K V) : list (K * V) :=
  shuffle ro (map_to_list m).

(** The keys of a [map[string]struct{}], as one [range] loop yields them. *)
Definition range_set (ro : RangeOrder) (s : gset string) : list string :=
  shuffle ro (elements s).

(** ** Constants *)

Definition MB : Z := 1024 * 1024.
Definition maxLines : nat := 100.
Definition defaultMinLength : Z := 15.

Definition esc : string := String "027" EmptyString.
Definition redBold : string := esc +:+ "[1m" +:+ esc +:+ "[31m".
Definition yellowBold : string := esc +:+ "[1m" +:+ esc +:+ "[33m".
Definition blueBold : string := esc +:+ "[1m" +:+ esc +:+ "[43m".
Definition reset : string := esc +:+ "[0m".

Definition slow : string := "slow".
Definition fast : string := "fast".

(** ** Data model *)

Abbreviation ID := string (only parsing).

(** [type Record struct]; [Terms] is its field [SearchTerms]. *)
Record FileRecord := mkRecord {
  Path : string;
  Size : Z;
  Hash : string;
  Terms : list string
}.

(** The zero value [Record{}], which reading a missing map key yields. *)
Definition zeroRecord : FileRecord := mkRecord "" 0 "" [].

Global Instance FileRecord_inhabited : Inhabited FileRecord := populate zeroRecord.

Global Instance FileRecord_eq_dec : EqDecision FileRecord.
Proof. solve_decision. Defined.

Inductive SearchType := SizeAndHash | SearchTerm.

(** [type SearchGroup struct], fields [IDs], [SearchTerms] and [Type]. *)
Record SearchGroup := mkGroup {
  GroupIDs : list ID;
  GroupSearchTerms : list string;
  GroupType : SearchType
}.

(** What the program hands to [Output.Println] and [Output.Printf], one
    constructor per call site, carrying the values that are formatted. *)
Inductive Line :=
| OutUnableToReadDB                       (* Load: "Unable to read DB file '%s', error: %v" *)
| OutUnableToParseSize (path raw : string) (* handleRecord: "Unable to parse size from record. ..." *)
| OutScanFailure (filename : string)       (* handleMatches: err.Error() of handleMatch *)
| OutScanReport (root : string) (found skipped created deleted : nat)
                                           (* "root: %s, %d found files, %d skipped, %d created, %d deleted\n" *)
| OutErrorScanning (root : string)         (* ScanCommand: "Error scanning directories: %v\n" *)
| OutNoResults                             (* Search: "No results found." *)
| OutNoResultsFor (needle : string)        (* "No results found for needle '%s'\n" *)
| OutResult (index : nat) (path : string) (mb : Z)
                                           (* PrintIDs: "[%d] %s (%d MB)\n" *)
| OutTruncated                             (* PrintIDs: "... (truncated)" *)
| OutDuplicatesFound (n iter total : nat) (type : SearchType)
                                           (* "Duplicates found: %d (%d / %d) - %s\n" *)
| OutDeletePrompt                          (* "Delete any files? (comma separated list of numbers)" *)
| OutErrorScanningNumbers (input : string) (* "Error scanning numbers. Scanned:" *)
| OutBlank                                 (* Println() *)
| OutInvalidNumber (num : string)          (* "Invalid number: %s, err: %v, skipping...\n" *)
| OutInvalidIndex (index : Z)              (* "Invalid index: %d, skipping...\n" *)
| OutDeleting (id : ID)                    (* Println("Deleting", id) *)
| OutUnableToDelete (id : ID).             (* "Unable to delete file: %s, err: %v\n" *)

(** [type DB struct].  The lock is left out (one operation runs at a time);
    [dbFile] is represented by the rows read from and written to it;
    [output] collects what went to the [Output] interface. *)
Record DB := mkDB {
  Files : gmap string FileRecord;
  Sizes : gmap Z (list ID);
  Hashes : gmap string (list ID);
  SearchTerms : gmap string (list ID);
  output : list Line
}.

Definition NewDB : DB := mkDB ∅ ∅ ∅ ∅ [].

Definition print (db : DB) (lines : list Line) : DB :=
  mkDB (Files db) (Sizes db) (Hashes db) (SearchTerms db) (output db ++ lines).

Definition setFiles (db : DB) (files : gmap string FileRecord) : DB :=
  mkDB files (Sizes db) (Hashes db) (SearchTerms db) (output db).

(** How an operation ends: normally, by a run-time panic, or by
    [Output.Exit(code)], after which nothing else runs. *)
Inductive result (A : Type) :=
| Ok (a : A)
| Panic
| Exited (code : Z) (out : list Line).
Arguments Ok {A} a.
Arguments Panic {A}.
Arguments Exited {A} code out.

Definition bind {A B} (r : result A) (k : A → result B) : result B :=
  match r with
  | Ok a => k a
  | Panic => Panic
  | Exited c o => Exited c o
  end.

(** [record[i]] on a slice: out of range is a run-time panic. *)
Definition at_index {A} (l : list A) (i : nat) : result A :=
  match l !! i with
  | Some x => Ok x
  | None => Panic
  end.

(** The operating system, as far as [Scan] consults it. *)
Record FS := mkFS {
  collectFiles : string → option (gset string);  (* the [filepath.Walk] of a root *)
  Stat : string → option Z;                      (* [os.Stat(filename)].Size() *)
  hashFile : string → Z → option string          (* [hashFile(path, sampleSize)] *)
}.

(** The collaborators of duplicate resolution: the lines [Output.Scanln]
    will deliver ([None] is a scan error) and the paths [os.Remove] can
    delete. *)
Record World := mkWorld {
  lines : list (option string);
  removable : gset string
}.

(** ** The record store *)

Definition pathToSearchTerms (filePath : string) : list string :=
  let fileName := (filepath_Split filePath).2 in
  (λ term, ToLower (TrimSpace term)) <$> Split "-" fileName.

(** [append(m[k], id)] stored back under [k]. *)
Definition append_to `{Countable K} (m : gmap K (list ID)) (k : K) (id : ID) : gmap K (list ID) :=
  <[k := (m !!! k) ++ [id]]> m.

(** [add] always returns a nil error. *)
Definition add (db : DB) (filePath : string) (size : Z) (hash : string)
    (searchTerms : list string) : DB :=
  let id := filePath in
  mkDB (<[id := mkRecord filePath size hash searchTerms]> (Files db))
       (append_to (Sizes db) size id)
       (append_to (Hashes db) hash id)
       (foldl (λ m term, append_to m term id) (SearchTerms db) searchTerms)
       (output db).

Definition handleRecord (db : DB) (record : list string) : result DB :=
  bind (at_index record 0) (λ filePath,
  bind (at_index record 1) (λ raw,
    match Atoi raw with
    | None => Ok (print db [OutUnableToParseSize filePath raw])
    | Some size =>
        bind (at_index record 2) (λ hash,
          Ok (add db filePath size hash (pathToSearchTerms filePath)))
    end)).

Fixpoint handleRecords (db : DB) (records : list (list string)) : result DB :=
  match records with
  | [] => Ok db
  | record :: rest => bind (handleRecord db record) (λ db', handleRecords db' rest)
  end.

(** [Load]; [csv] is what [readCsvFile] returns: the rows, or [None] when
    the file cannot be opened or is not CSV. *)
Definition Load (db : DB) (csv : option (list (list string))) : result DB :=
  match csv with
  | None => Exited 1 (output db ++ [OutUnableToReadDB])
  | Some records => handleRecords db records
  end.

(** [handleMatch]; [None] is its error. *)
Definition handleMatch (db : DB) (fs : FS) (filename : string) : option DB :=
  size ← Stat fs filename;
  let searchTerms := pathToSearchTerms filename in
  let hashSize := if (size <? MB)%Z then size else MB in
  hash ← hashFile fs filename hashSize;
  Some (add db filename size hash searchTerms).

(** The first loop of [handleMatches]: the store and the counters
    [skipped] and [created]. *)
Definition addFound (fs : FS) (st : DB * nat * nat) (filename : string) : DB * nat * nat :=
  let '(db, skipped, created) := st in
  match Files db !! filename with
  | Some _ => (db, S skipped, created)
  | None =>
      match handleMatch db fs filename with
      | None => (print db [OutScanFailure filename], skipped, created)
      | Some db' => (db', skipped, S created)
      end
  end.

(** The second loop of [handleMatches]: [Files] and the counter [deleted].
    An entry that was deleted before the loop reached it is not visited. *)
Definition removeMissing (root : string) (files : gset string)
    (st : gmap string FileRecord * nat) (entry : string * FileRecord)
    : gmap string FileRecord * nat :=
  let '(m, deleted) := st in
  let '(key, record) := entry in
  if bool_decide (m !! key = None) then (m, deleted)
  else if negb (HasPrefix (Path record) root) then (m, deleted)
  else if bool_decide (Path record ∈ files) then (m, deleted)
  else (delete (Path record) m, S deleted).

Definition handleMatches (ro : RangeOrder) (db : DB) (fs : FS) (root : string)
    (files : gset string) : DB :=
  let '(db1, skipped, created) := foldl (addFound fs) (db, 0%nat, 0%nat) (range_set ro files) in
  let '(m, deleted) := foldl (removeMissing root files) (Files db1, 0%nat) (range ro (Files db1)) in
  print (setFiles db1 m) [OutScanReport root (size files) skipped created deleted].

(** [Scan]: the store, and the root whose listing failed, if any. *)
Fixpoint Scan (ro : RangeOrder) (db : DB) (fs : FS) (roots : list string) : DB * option string :=
  match roots with
  | [] => (db, None)
  | root :: rest =>
      match collectFiles fs root with
      | None => (db, Some root)
      | Some files => Scan ro (handleMatches ro db fs root files) fs rest
      end
  end.

(** [Write]: the rows handed to the CSV writer, one per entry of [Files]. *)
Definition Write (ro : RangeOrder) (db : DB) : list (list string) :=
  (λ entry, [Path entry.2; Itoa (Size entry.2); Hash entry.2]) <$> range ro (Files db).

(** ** Highlight renderer *)

(** The first loop of [FindHighlights]: the span [[idx, idx+len)] of the
    first occurrence of each needle in the lowered haystack. *)
Definition findSpans (lower : string) (needles : list string) : list (nat * nat) :=
  foldl (λ highlights searchTerm,
           match Index lower searchTerm with
           | None => highlights
           | Some idx => highlights ++ [(idx, (idx + String.length searchTerm)%nat)]
           end) [] needles.

(** [highlights[i][0] < highlights[j][0]]. *)
Definition startsBefore (a b : nat * nat) : bool := (a.1 <? b.1)%nat.

(** The second loop of [FindHighlights]: [None] is the early return on
    overlapping ranges, otherwise the parts and the cursor [tmp]. *)
Fixpoint highlightLoop (haystack : string) (highlights : list (nat * nat))
    (parts : list string) (tmp : nat) : option (list string * nat) :=
  match highlights with
  | [] => Some (parts, tmp)
  | highlight :: rest =>
      if ((0 <? tmp) && (highlight.1 <? tmp))%nat then None
      else highlightLoop haystack rest
             (parts ++ [slice haystack tmp highlight.1;
                        redBold +:+ slice haystack highlight.1 highlight.2 +:+ reset])
             highlight.2
  end.

Definition FindHighlights (haystack : string) (needles : list string) : string :=
  let lower := ToLower haystack in
  let highlights := insertion_sort startsBefore (findSpans lower needles) in
  match highlightLoop haystack highlights [] 0 with
  | None => blueBold +:+ haystack +:+ reset
  | Some (parts, tmp) =>
      let parts := if (tmp <? String.length haystack)%nat
                   then parts ++ [sliceFrom haystack tmp] else parts in
      if (length parts <=? 1)%nat then yellowBold +:+ haystack +:+ reset
      else String.concat "" parts
  end.

(** ** Search engine *)

Fixpoint fastCollect (db : DB) (searchedTerms : list string) (results : list (list ID))
    : list (list ID) * list Line :=
  match searchedTerms with
  | [] => (results, [])
  | needle :: rest =>
      match SearchTerms db !! needle with
      | None => ([], [OutNoResultsFor needle])
      | Some termIDs =>
          if (length termIDs =? 0)%nat then ([], [])
          else fastCollect db rest (results ++ [termIDs])
      end
  end.

(** [fastCollectIDs]: the per-needle buckets (nil is [[]]) and what was printed. *)
Definition fastCollectIDs (db : DB) (searchedTerms : list string) : list (list ID) * list Line :=
  fastCollect db searchedTerms [].

(** The inner loop of [slowCollectIDs]: the buckets of all keys that
    contain the needle, appended in iteration order. *)
Definition slowFound (entries : list (string * list ID)) (needle : string) : list ID :=
  foldl (λ found entry, if Contains entry.1 needle then found ++ entry.2 else found) [] entries.

Fixpoint slowCollect (ro : RangeOrder) (db : DB) (searchedTerms : list string)
    (results : list (list ID)) : list (list ID) * list Line :=
  match searchedTerms with
  | [] => (results, [])
  | needle :: rest =>
      let found := slowFound (range ro (SearchTerms db)) needle in
      if (length found =? 0)%nat then ([], [OutNoResultsFor needle])
      else slowCollect ro db rest (results ++ [found])
  end.

Definition slowCollectIDs (ro : RangeOrder) (db : DB) (searchedTerms : list string)
    : list (list ID) * list Line :=
  slowCollect ro db searchedTerms [].

Definition intersectIDs (a b : list ID) : list ID :=
  filter (λ id, id ∈ b) a.

Fixpoint intersectFrom (idGroup : list ID) (rest : list (list ID)) : list ID :=
  match rest with
  | [] => idGroup
  | termIDs :: rest' =>
      let idGroup' := intersectIDs idGroup termIDs in
      if (length idGroup' =? 0)%nat then [] else intersectFrom idGroup' rest'
  end.

(** [intersectAllIDs]; [idGroups[0]] panics on an empty argument. *)
Definition intersectAllIDs (idGroups : list (list ID)) : result (list ID) :=
  bind (at_index idGroups 0) (λ idGroup, Ok (intersectFrom idGroup (drop 1 idGroups))).

(** The slice [ids] of [PrintIDs] once it has been cut to [maxLines] and
    sorted: the entries that are printed, in their printed order. *)
Definition displayed (ids : list ID) : list ID :=
  insertion_sort String.ltb (if (maxLines <? length ids)%nat then take maxLines ids else ids).

(** The caller's slice after [PrintIDs]: the sort works in place on its
    first [maxLines] elements. *)
Definition afterPrint (ids : list ID) : list ID :=
  displayed ids ++ drop maxLines ids.

Definition resultLine (db : DB) (searchTerms : list string) (i : nat) (id : ID) : Line :=
  let record := Files db !!! id in
  OutResult (i + 1) (FindHighlights (Path record) searchTerms) (Size record `quot` MB).

Definition PrintIDs (db : DB) (ids : list ID) (searchTerms : list string) : DB :=
  let ids := displayed ids in
  let db' := print db (imap (resultLine db searchTerms) ids) in
  if (maxLines <=? length ids)%nat then print db' [OutTruncated] else db'.

Definition Search (ro : RangeOrder) (db : DB) (searchType : string)
    (searchTerms : list string) : result DB :=
  let '(allIDs, lines) :=
    if String.eqb searchType fast then fastCollectIDs db searchTerms
    else if String.eqb searchType slow then slowCollectIDs ro db searchTerms
    else ([], []) in
  let db := print db lines in
  if (length allIDs =? 0)%nat then Ok (print db [OutNoResults])
  else bind (intersectAllIDs allIDs) (λ intersected, Ok (PrintIDs db intersected searchTerms)).

(** ** Duplicate resolver *)

(** [fmt.Sprintf("%s-%d", hash, size)]. *)
Definition groupID (hash : string) (size : Z) : string := hash +:+ "-" +:+ Itoa size.

(** The map [sizes] built for one hash bucket. *)
Definition partitionBySize (db : DB) (ids : list ID) : gmap Z (list ID) :=
  foldl (λ sizes id, append_to sizes (Size (Files db !!! id)) id) ∅ ids.

Definition addSizeGroup (hash : string) (groups : gmap string SearchGroup)
    (entry : Z * list ID) : gmap string SearchGroup :=
  <[groupID hash entry.1 := mkGroup (insertion_sort String.ltb entry.2) [] SizeAndHash]> groups.

Definition addHashGroups (ro : RangeOrder) (db : DB) (groups : gmap string SearchGroup)
    (entry : string * list ID) : gmap string SearchGroup :=
  if (length entry.2 <? 2)%nat then groups
  else foldl (addSizeGroup entry.1) groups (range ro (partitionBySize db entry.2)).

(** The map [groups] that [duplicatesBySizeAndHash] builds. *)
Definition sizeAndHashGroups (ro : RangeOrder) (db : DB) : gmap string SearchGroup :=
  foldl (addHashGroups ro db) ∅ (range ro (Hashes db)).

Definition addTermGroup (minLength : Z) (groups : gmap string SearchGroup)
    (entry : string * list ID) : gmap string SearchGroup :=
  if (length entry.2 <? 2)%nat then groups
  else if (Z.of_nat (String.length entry.1) <? minLength)%Z then groups
  else <[entry.1 := mkGroup entry.2 [entry.1] SearchTerm]> groups.

(** The map [groups] that [duplicatesBySearchTerm] builds. *)
Definition searchTermGroups (ro : RangeOrder) (db : DB) (minLength : Z) : gmap string SearchGroup :=
  foldl (addTermGroup minLength) ∅ (range ro (SearchTerms db)).

(** [os.Remove(id)]: whether it succeeded, and the paths still removable. *)
Definition osRemove (w : World) (id : ID) : bool * World :=
  if bool_decide (id ∈ removable w) then (true, mkWorld (lines w) (removable w ∖ {[id]}))
  else (false, w).

Definition deleteFile (db : DB) (w : World) (ids : list ID) (num : string) : DB * World * bool :=
  match Atoi (TrimSpace num) with
  | None => (print db [OutInvalidNumber num], w, false)
  | Some index =>
      if ((index <? 1) || (Z.of_nat (length ids) <? index))%Z
      then (print db [OutInvalidIndex index], w, false)
      else
        let id := ids !!! Z.to_nat (index - 1) in
        let db1 := setFiles (print db [OutDeleting id]) (delete id (Files db)) in
        let '(removed, w1) := osRemove w id in
        if removed then (db1, w1, true)
        else (print db1 [OutUnableToDelete id], w1, false)
  end.

(** [Output.Scanln(&input)]: the next line ([None]: an error, [input] is
    kept), and an empty line once the input is used up. *)
Definition Scanln (w : World) : option string * World :=
  match lines w with
  | [] => (Some "", w)
  | Some line :: rest => (Some line, mkWorld rest (removable w))
  | None :: rest => (None, mkWorld rest (removable w))
  end.

(** One round of the loop of [handleDuplicateGroups]; the state is the
    store, the collaborators, the variable [input] and the counter [iter]. *)
Definition handleGroup (total : nat) (st : DB * World * string * nat)
    (group : SearchGroup) : DB * World * string * nat :=
  let '(db, w, input, iter) := st in
  let db := print db [OutDuplicatesFound (length (GroupIDs group)) iter total (GroupType group)] in
  let db := PrintIDs db (GroupIDs group) (GroupSearchTerms group) in
  let ids := afterPrint (GroupIDs group) in
  let db := print db [OutDeletePrompt] in
  match Scanln w with
  | (None, w) => (print db [OutErrorScanningNumbers input; OutBlank], w, input, S iter)
  | (Some input, w) =>
      if (String.length (TrimSpace input) =? 0)%nat then (db, w, input, S iter)
      else
        let '(db, w) := foldl (λ s num, (deleteFile s.1 s.2 ids num).1)
                              (db, w) (Split "," input) in
        (print db [OutBlank], w, input, S iter)
  end.

Definition handleDuplicateGroups (ro : RangeOrder) (db : DB) (w : World)
    (searchGroups : gmap string SearchGroup) : DB * World :=
  (foldl (handleGroup (size searchGroups)) (db, w, "", 1%nat) (range ro searchGroups).*2).1.1.

Definition duplicatesBySizeAndHash (ro : RangeOrder) (db : DB) (w : World) : DB * World :=
  handleDuplicateGroups ro db w (sizeAndHashGroups ro db).

Definition duplicatesBySearchTerm (ro : RangeOrder) (db : DB) (w : World) (minLength : Z)
    : DB * World :=
  handleDuplicateGroups ro db w (searchTermGroups ro db minLength).

Definition Duplicates (ro : RangeOrder) (db : DB) (w : World) (minLength : Z) : DB * World :=
  let '(db1, w1) := duplicatesBySizeAndHash ro db w in
  duplicatesBySearchTerm ro db1 w1 minLength.

(** ** Statistics *)

(** What [Stats] hands to [Output.Printf] and [Output.Println], one
    constructor per call site.  [Stats] only prints: its lines are kept
    apart from the store. *)
Inductive StatsLine :=
| OutTotalRecords (n : nat)              (* "Total records: %d\n" *)
| OutTotalSizes (n : nat)                (* "Total unique sizes: %d\n" *)
| OutTotalSearchTerms (n : nat)          (* "Total unique search terms: %d\n" *)
| OutTotalHashes (n : nat)               (* "Total unique hashes: %d\n" *)
| OutSizesMultiple (n : nat)             (* "Sizes with multiple records: %d\n" *)
| OutHashesMultiple (n : nat)            (* "Hashes with multiple records: %d\n" *)
| OutStatsBlank                          (* Println() *)
| OutDistribution                        (* "Search term length distribution:\n" *)
| OutTermsOfLength (length count : Z).   (* "Search terms with length %d: %d\n" *)

(** The counter of [sizeStats] and [hashStats]: a bucket counts unless it
    holds exactly one id. *)
Definition countMultiple {K} (buckets : list (K * list ID)) : nat :=
  foldl (λ n entry, if (length entry.2 =? 1)%nat then n else S n) 0%nat buckets.

Definition sizeStats (ro : RangeOrder) (db : DB) : list StatsLine :=
  [OutSizesMultiple (countMultiple (range ro (Sizes db)))].

Definition hashStats (ro : RangeOrder) (db : DB) : list StatsLine :=
  [OutHashesMultiple (countMultiple (range ro (Hashes db)))].

(** One round of the first loop of [searchTermStats]; reading a missing
    key of the [map[int]int] yields 0. *)
Definition addTermStat (minLength : Z) (stats : gmap Z Z) (entry : string * list ID)
    : gmap Z Z :=
  if (length entry.2 <? 2)%nat then stats
  else if (Z.of_nat (String.length entry.1) <? minLength)%Z then stats
  else
    let key := (Z.of_nat (String.length entry.1) ÷ 5)%Z in
    <[key := (default 0 (stats !! key) + 1)%Z]> stats.

Definition searchTermStats (ro : RangeOrder) (db : DB) (minLength : Z) : list StatsLine :=
  let stats := foldl (addTermStat minLength) ∅ (range ro (SearchTerms db)) in
  let keys := insertion_sort Z.ltb (range ro stats).*1 in
  [OutStatsBlank; OutDistribution]
  ++ ((λ length, OutTermsOfLength (length * 5) (default 0 (stats !! length))) <$> keys).

Definition Stats (ro : RangeOrder) (db : DB) (minLength : Z) : list StatsLine :=
  [OutTotalRecords (size (Files db)); OutTotalSizes (size (Sizes db));
   OutTotalSearchTerms (size (SearchTerms db)); OutTotalHashes (size (Hashes db))]
  ++ sizeStats ro db ++ hashStats ro db ++ searchTermStats ro db minLength.

(** ** Commands *)


Definition TermSearchCommand (ro : RangeOrder) (csv : option (list (list string)))
    (modeFlag : string) (searchTerms : list string) : result DB :=
  bind (Load NewDB csv) (λ db, Search ro db modeFlag searchTerms).

Definition FileSearchCommand (ro : RangeOrder) (csv : option (list (list string)))
    (modeFlag filePath : string) : result DB :=
  bind (Load NewDB csv) (λ db, Search ro db modeFlag (pathToSearchTerms filePath)).


(** ** Notions used to state the properties *)

(** [root] is a true path prefix of [path]: [path] is [root] itself or
    continues it at a path separator. *)
Definition underRoot (root path : string) : bool :=
  String.eqb path root
  || HasPrefix path (if HasPrefix (String.rev root) "/" then root else root +:+ "/").

(** The catalogue row of a file. *)
Definition row (path : string) (size : Z) (hash : string) : list string :=
  [path; Itoa size; hash].

(** A store that holds one record per given path, each of size 1. *)
Definition storeOf (ids : list ID) : result DB :=
  Load NewDB (Some ((λ id, row id 1 "d41d8cd98f00b204e9800998ecf8427e") <$> ids)).

(** Paths [f1000], [f1001], ... in ascending order. *)
Definition samplePaths (n : nat) : list ID :=
  (λ i, "f" +:+ Itoa (Z.of_nat (1000 + i))) <$> seq 0 n.

(** A file system without any file. *)
Definition emptyFS : FS := mkFS (λ _, Some ∅) (λ _, None) (λ _ _, None).

(** The primary map is well formed: a record is stored under its own path
    and its size is a Go [int]. *)
Definition store_wf (m : gmap string FileRecord) : Prop :=
  ∀ id r, m !! id = Some r → Path r = id ∧ int_range (Size r).

(** The persisted part of a record. *)
Definition triple (r : FileRecord) : string * Z * string := (Path r, Size r, Hash r).

(** The [(path, size, hash)] triples of a primary map, in some order. *)
Definition triples (m : gmap string FileRecord) : list (string * Z * string) :=
  triple <$> (map_to_list m).*2.

(** The store of the tests: four catalogued files, two of them with the
    same size and hash. *)
Definition testRows : list (list string) :=
  [ row "bambam/foo-756381984.txt" 756381984 "464f1ce84fed3d6837db4b810462f8de";
    row "bambam/bar-1786396036.txt" 1786396036 "4d09a656f20fee1beb093f30c7ec504c";
    row "bambam/baz.txt" 756381984 "464f1ce84fed3d6837db4b810462f8de";
    row "bambam/quix-1786396036.txt" 123 "788b62828f73d4bac70088ea91c90ef5" ].

Definition testDB : DB :=
  match Load NewDB (Some testRows) with
  | Ok db => db
  | _ => NewDB
  end.

(** What [handleRecord] stores for a row written from [r]: the same
    triple, with the search terms derived again from the path. *)
Definition reloaded (r : FileRecord) : FileRecord :=
  mkRecord (Path r) (Size r) (Hash r) (pathToSearchTerms (Path r)).

(** One round of [Load] on a row written from the entry [e]. *)
Definition addEntry (db : DB) (e : string * FileRecord) : DB :=
  add db (Path e.2) (Size e.2) (Hash e.2) (pathToSearchTerms (Path e.2)).

(** ** The index invariant *)

(** Every record of [Files] is stored under its path, carries the terms
    derived from its path, and is listed in the bucket of its size, of its
    hash and of each of its terms. *)
Definition index_complete (db : DB) : Prop :=
  ∀ id r, Files db !! id = Some r →
    Path r = id
    ∧ Terms r = pathToSearchTerms id
    ∧ id ∈ Sizes db !!! Size r
    ∧ id ∈ Hashes db !!! Hash r
    ∧ ∀ t, t ∈ Terms r → id ∈ SearchTerms db !!! t.

(** No bucket lists a path that [Files] does not hold with that size, hash
    or term. *)
Definition index_sound (db : DB) : Prop :=
  (∀ s id, id ∈ Sizes db !!! s → ∃ r, Files db !! id = Some r ∧ Size r = s)
  ∧ (∀ h id, id ∈ Hashes db !!! h → ∃ r, Files db !! id = Some r ∧ Hash r = h)
  ∧ (∀ t id, id ∈ SearchTerms db !!! t → ∃ r, Files db !! id = Some r ∧ t ∈ Terms r).

(** The three indices are exact denormalizations of [Files]. *)
Definition index_exact (db : DB) : Prop := index_complete db ∧ index_sound db.

(** The mutating operations of a store. *)
Inductive Op :=
| OpLoad (csv : option (list (list string)))
| OpScan (fs : FS) (roots : list string)
| OpDuplicates (w : World) (minLength : Z).

Definition step (ro : RangeOrder) (db : DB) (op : Op) : result DB :=
  match op with
  | OpLoad csv => Load db csv
  | OpScan fs roots => Ok (Scan ro db fs roots).1
  | OpDuplicates w minLength => Ok (Duplicates ro db w minLength).1
  end.

Fixpoint run (ro : RangeOrder) (db : DB) (ops : list Op) : result DB :=
  match ops with
  | [] => Ok db
  | op :: rest => bind (step ro db op) (λ db', run ro db' rest)
  end.

(** [db'] differs from [db] only by records removed from [Files] and by
    what was printed. *)
Definition shrinks (db db' : DB) : Prop :=
  Files db' ⊆ Files db
  ∧ Sizes db' = Sizes db ∧ Hashes db' = Hashes db ∧ SearchTerms db' = SearchTerms db.

(** The store of 101 sample files. *)
Definition sampleDB : DB :=
  match storeOf (samplePaths 101) with
  | Ok db => db
  | _ => NewDB
  end.

(** The entries of the test store. *)
Definition testEntries : list (string * FileRecord) :=
  Eval vm_compute in map_to_list (Files testDB).

(** A load, a scan of a root that holds one new file, and a duplicate
    resolution in which the second entry of the first group is deleted. *)
Definition scenarioOps : list Op :=
  [OpLoad (Some testRows);
   OpScan (mkFS (λ _, Some {["bambam/new-file.txt"]}) (λ _, Some 7)
                (λ _ _, Some "0f343b0931126a20f133d67c2b018a3b")) ["bambam/q"];
   OpDuplicates (mkWorld [Some "2"] ∅) 15].

Definition scenarioDB : DB :=
  match run natural_order NewDB scenarioOps with
  | Ok db => db
  | _ => NewDB
  end.

(** The store after one file was catalogued and a scan found it gone. *)
Definition staleDB : DB :=
  match run natural_order NewDB
          [OpLoad (Some [row "r/a" 1 "c4ca4238a0b923820dcc509a6f75849b"]);
           OpScan emptyFS ["r"]] with
  | Ok db => db
  | _ => NewDB
  end.

(** ** Notions for rescans *)

(** Every record is stored under its own path. *)
Definition keyed (m : gmap string FileRecord) : Prop :=
  ∀ id r, m !! id = Some r → Path r = id.

(** [handleMatch] succeeds on the file: it can be stat'ed and hashed. *)
Definition readable (fs : FS) (filename : string) : Prop :=
  is_Some (handleMatch NewDB fs filename).

(** The number of listed files that the store holds. *)
Definition catalogued (db : DB) (files : gset string) : nat :=
  length (filter (λ f, is_Some (Files db !! f)) (elements files)).

(** The test of the second loop of [handleMatches]: the record stays. *)
Definition kept (root : string) (files : gset string) (path : string) : bool :=
  negb (HasPrefix path root) || bool_decide (path ∈ files).

(** A root with one file that cannot be stat'ed. *)
Definition unreadableFS : FS := mkFS (λ _, Some {["r/a"]}) (λ _, None) (λ _ _, None).

(** A root with two readable files. *)
Definition twoFilesFS : FS :=
  mkFS (λ _, Some {["r/a"; "r/b"]}) (λ _, Some 3)
       (λ _ _, Some "900150983cd24fb0d6963f7d28e17f72").

(** ** Notions for search *)

(** What the [switch] of [Search] collects. *)
Definition collectIDs (ro : RangeOrder) (db : DB) (searchType : string)
    (searchTerms : list string) : list (list ID) * list Line :=
  if String.eqb searchType fast then fastCollectIDs db searchTerms
  else if String.eqb searchType slow then slowCollectIDs ro db searchTerms
  else ([], []).

(** The value [intersected] that [Search] hands to [PrintIDs]; empty when
    [Search] reports that nothing was found. *)
Definition searchResult (ro : RangeOrder) (db : DB) (searchType : string)
    (searchTerms : list string) : list ID :=
  match intersectAllIDs (collectIDs ro db searchType searchTerms).1 with
  | Ok ids => ids
  | _ => []
  end.

(** The match set of one token: in fuzzy (slow) mode the paths in the
    buckets of all keys that contain the token, in exact (fast) mode the
    paths in the bucket of the token. *)
Definition matchSet (db : DB) (searchType : string) (needle : string) (id : ID) : Prop :=
  if String.eqb searchType fast then
    ∃ ids, SearchTerms db !! needle = Some ids ∧ id ∈ ids
  else
    ∃ term ids, SearchTerms db !! term = Some ids ∧ Contains term needle = true ∧ id ∈ ids.

(** [a] is not after [b] in the byte-wise order of Go strings. *)
Definition path_le (a b : string) : Prop := String.leb a b = true.

(** The span [a] does not start after the span [b]. *)
Definition start_le (a b : nat * nat) : Prop := (a.1 ≤ b.1)%nat.

(** What [PrintIDs] prints for the slice [ids]. *)
Definition printedLines (db : DB) (ids : list ID) (searchTerms : list string) : list Line :=
  imap (resultLine db searchTerms) (displayed ids)
  ++ (if (maxLines <=? length (displayed ids))%nat then [OutTruncated] else []).

(** The record [handleMatch] stores for a file, when it can be stat'ed
    and hashed. *)
Definition scanned (fs : FS) (filename : string) : option FileRecord :=
  size ← Stat fs filename;
  hash ← hashFile fs filename (if (size <? MB)%Z then size else MB);
  Some (mkRecord filename size hash (pathToSearchTerms filename)).

(** What a scan makes of the entry [id] of [Files]: a record that fails
    the test of the second loop goes, a record that is there stays as it
    is, and a listed file that is not catalogued is scanned. *)
Definition reconciled (db : DB) (fs : FS) (root : string) (files : gset string)
    (id : ID) : option FileRecord :=
  if kept root files id then
    match Files db !! id with
    | Some r => Some r
    | None => if bool_decide (id ∈ files) then scanned fs id else None
    end
  else None.

Global Instance readable_dec (fs : FS) (filename : string) : Decision (readable fs filename).
Proof. unfold readable. apply _. Defined.

(** The counter [created] of a scan: the listed files that are not
    catalogued and can be stat'ed and hashed. *)
Definition creatable (db : DB) (fs : FS) (files : gset string) : nat :=
  length (filter (λ f, Files db !! f = None ∧ readable fs f) (elements files)).

(** The counter [deleted] of a scan: the records that fail the test of the
    second loop. *)
Definition removable_records (db : DB) (root : string) (files : gset string) : nat :=
  length (filter (λ e, kept root files e.1 = false) (map_to_list (Files db))).

(** ** Notions for duplicate resolution *)

(** The id that the answer [num] selects in the displayed group [ids]:
    a number between 1 and the length of the group. *)
Definition chosen (ids : list ID) (num : string) : option ID :=
  index ← Atoi (TrimSpace num);
  if ((index <? 1) || (Z.of_nat (length ids) <? index))%Z then None
  else ids !! Z.to_nat (index - 1).



(** ** Notions for loading *)

(** The size field of the row parses as a Go [int]. *)
Definition sizeParses (record : list string) : Prop := is_Some (Atoi (record !!! 1%nat)).

Global Instance sizeParses_dec record : Decision (sizeParses record).
Proof. unfold sizeParses. apply _. Defined.

(** The row makes [handleRecord] index out of range: fewer than two
    fields, or two fields of which the second parses as a size. *)
Definition shortRow (record : list string) : Prop :=
  (length record < 2)%nat ∨ (length record = 2%nat ∧ sizeParses record).

(** The diagnostic [handleRecord] prints for a row, if any. *)
Definition diagnostic (record : list string) : option Line :=
  match Atoi (record !!! 1%nat) with
  | None => Some (OutUnableToParseSize (record !!! 0%nat) (record !!! 1%nat))
  | Some _ => None
  end.

(** The four maps of two stores are the same. *)
Definition same_maps (db db' : DB) : Prop :=
  Files db' = Files db ∧ Sizes db' = Sizes db ∧ Hashes db' = Hashes db
  ∧ SearchTerms db' = SearchTerms db.

(** The paths of the rows that [Load] adds. *)
Definition loadedPaths (records : list (list string)) : list string :=
  (λ record, record !!! 0%nat) <$> filter sizeParses records.

(** ** Notions for the duplicate groups *)

(** [groups[key] = value], or nothing when there is no value. *)
Definition put `{Countable K} {V} (groups : gmap K V) (kv : K * option V) : gmap K V :=
  match kv.2 with
  | Some v => <[kv.1 := v]> groups
  | None => groups
  end.

(** The group that [duplicatesBySearchTerm] makes of one bucket: none for
    fewer than two ids or a term shorter than [minLength]. *)
Definition termGroup (minLength : Z) (term : string) (ids : list ID) : option SearchGroup :=
  if (length ids <? 2)%nat then None
  else if (Z.of_nat (String.length term) <? minLength)%Z then None
  else Some (mkGroup ids [term] SearchTerm).

(** [db.Files[id].Size], zero for an id that [Files] does not hold. *)
Definition sizeOf (db : DB) (id : ID) : Z := Size (Files db !!! id).

(** The ids of a bucket that have the given size, in ascending order. *)
Definition sizeGroup (db : DB) (ids : list ID) (size : Z) : SearchGroup :=
  mkGroup (insertion_sort String.ltb (filter (λ id, sizeOf db id = size) ids)) [] SizeAndHash.

(** No byte of the string is ['-']; hexadecimal digests are such. *)
Fixpoint dashFree (s : string) : bool :=
  match s with
  | EmptyString => true
  | String c s' => negb (Ascii.eqb c "-") && dashFree s'
  end.

(** The part of a string before its first ['-']. *)
Fixpoint beforeDash (s : string) : string :=
  match s with
  | EmptyString => EmptyString
  | String c s' => if Ascii.eqb c "-" then EmptyString else String c (beforeDash s')
  end.

(** The entries that [duplicatesBySizeAndHash] stores for one hash bucket. *)
Definition hashPairs (ro : RangeOrder) (db : DB) (entry : string * list ID)
    : list (string * option SearchGroup) :=
  if (length entry.2 <? 2)%nat then []
  else (λ e : Z * list ID,
          (groupID entry.1 e.1, Some (mkGroup (insertion_sort String.ltb e.2) [] SizeAndHash)))
       <$> range ro (partitionBySize db entry.2).

(** The hash buckets of the test store. *)
Definition testHashes : list (string * list ID) :=
  Eval vm_compute in map_to_list (Hashes testDB).

(** ** Notions for the highlight renderer *)








(** ** Notions for the search terms of a path *)

(** The byte [c] occurs in [s]. *)
Fixpoint hasByte (c : ascii) (s : string) : bool :=
  match s with
  | EmptyString => false
  | String c' s' => Ascii.eqb c' c || hasByte c s'
  end.

(** A search term as [pathToSearchTerms] makes them: in lower case, without
    white space around it, and free of the two separators. *)
Definition isTerm (term : string) : Prop :=
  ToLower term = term ∧ TrimSpace term = term
  ∧ hasByte "-" term = false ∧ hasByte "/" term = false.

(** ** Notions for the statistics *)

(** A bucket of [SearchTerms] that [searchTermStats] counts. *)
Definition counted (minLength : Z) (entry : string * list ID) : Prop :=
  (2 ≤ length entry.2)%nat ∧ (minLength ≤ Z.of_nat (String.length entry.1))%Z.

Global Instance counted_dec minLength entry : Decision (counted minLength entry).
Proof. unfold counted. apply _. Defined.

(** The counted buckets of [SearchTerms] whose term has its length in
    [[5 * k, 5 * k + 5)]. *)
Definition termsIn (db : DB) (minLength k : Z) : list (string * list ID) :=
  filter (λ entry, counted minLength entry
                   ∧ (5 * k ≤ Z.of_nat (String.length entry.1) < 5 * k + 5)%Z)
         (map_to_list (SearchTerms db)).

(** The buckets that do not hold exactly one id. *)
Definition notSingle {K} (buckets : list (K * list ID)) : list (K * list ID) :=
  filter (λ entry, length entry.2 ≠ 1%nat) buckets.

(** ** Notions for the catalogue that is written back *)

(** The sizes that [os.Stat] reports to a scan are Go [int]s. *)
Definition ranged (op : Op) : Prop :=
  match op with
  | OpScan fs _ => ∀ filename size, Stat fs filename = Some size → int_range size
  | _ => True
  end.

(** ** Notions for the commands *)



(** * Properties *)

(** ** The library functions on examples *)

Example ToLower_ex : ToLower "hElLo World-9" = "hello world-9".
Proof. reflexivity. Qed.

Example TrimSpace_ex : TrimSpace "  a b	 " = "a b".
Proof. reflexivity. Qed.

Example Split_ex : Split "-" "foo-756381984.txt" = ["foo"; "756381984.txt"].
Proof. reflexivity. Qed.

Example Split_empty_ex : Split "," "" = [""].
Proof. reflexivity. Qed.

Example filepath_Split_ex : filepath_Split "bambam/quix-1.txt" = ("bambam/", "quix-1.txt").
Proof. reflexivity. Qed.

Example Itoa_ex : Itoa 756381984 = "756381984" /\ Itoa 0 = "0" /\ Itoa (-12) = "-12".
Proof. repeat split; reflexivity. Qed.

Example Atoi_ex :
  Atoi "756381984" = Some 756381984 /\ Atoi "+7" = Some 7 /\ Atoi "-0" = Some 0
  /\ Atoi "" = None /\ Atoi "12a" = None /\ Atoi "-" = None
  /\ Atoi "9223372036854775808" = None /\ Atoi "-9223372036854775808" = Some (- 2 ^ 63).
Proof. repeat split; vm_compute; reflexivity. Qed.


(** ** Iteration orders *)

Lemma shuffle_nil (ro : RangeOrder) {A} : shuffle ro (@nil A) = [].
Proof. apply Permutation_nil_r, shuffle_perm. Qed.

Lemma shuffle_singleton (ro : RangeOrder) {A} (x : A) : shuffle ro [x] = [x].
Proof. apply Permutation_singleton_r, shuffle_perm. Qed.

Lemma range_perm `{Countable K} {V} (ro : RangeOrder) (m : gmap K V) :
  range ro m ≡ₚ map_to_list m.
Proof. apply shuffle_perm. Qed.

Lemma range_set_perm (ro : RangeOrder) (s : gset string) : range_set ro s ≡ₚ elements s.
Proof. apply shuffle_perm. Qed.

Lemma elem_of_range `{Countable K} {V} (ro : RangeOrder) (m : gmap K V) k v :
  (k, v) ∈ range ro m ↔ m !! k = Some v.
Proof. rewrite range_perm. apply elem_of_map_to_list. Qed.

Lemma elem_of_range_set (ro : RangeOrder) (s : gset string) x : x ∈ range_set ro s ↔ x ∈ s.
Proof. rewrite range_set_perm. apply elem_of_elements. Qed.

Lemma NoDup_range_set (ro : RangeOrder) (s : gset string) : NoDup (range_set ro s).
Proof. rewrite range_set_perm. apply NoDup_elements. Qed.

Lemma NoDup_range_keys `{Countable K} {V} (ro : RangeOrder) (m : gmap K V) :
  NoDup (range ro m).*1.
Proof. rewrite range_perm. apply NoDup_fst_map_to_list. Qed.

(** ** Load on short rows (C5) *)

(** C5 (the code departs from the claim).  The backing file [a,1] is
    readable and parses as CSV, with one row of two fields.  [handleRecord]
    parses the size and then reads [record[2]], which is out of range: the
    load ends in a run-time panic instead of skipping the row.  A row of one
    field panics at [record[1]]. *)
Theorem Load_short_row_panics :
  Load NewDB (Some [["a"; "1"]]) = Panic ∧ Load NewDB (Some [["a"]]) = Panic.
Proof. split; reflexivity. Qed.

(** ** Scan and the raw string prefix (C3) *)

(** C3 (the code departs from the claim).  The store holds
    [/data/foobar/x.txt]; the root [/data/foo] is scanned and its listing is
    empty.  The root is not a path prefix of the record's path, yet
    [strings.HasPrefix] accepts it and the record is removed and counted as
    deleted. *)
Theorem handleMatches_removes_sibling (ro : RangeOrder) :
  ∃ db, Load NewDB (Some [row "/data/foobar/x.txt" 3 "900150983cd24fb0d6963f7d28e17f72"]) = Ok db
    ∧ underRoot "/data/foo" "/data/foobar/x.txt" = false
    ∧ is_Some (Files db !! "/data/foobar/x.txt")
    ∧ Files (handleMatches ro db emptyFS "/data/foo" ∅) = ∅
    ∧ output (handleMatches ro db emptyFS "/data/foo" ∅) = [OutScanReport "/data/foo" 0 0 0 1].
Proof.
  eexists. split; [reflexivity|].
  split; [reflexivity|]. split; [by eexists|].
  unfold handleMatches, range_set, range.
  rewrite elements_empty, shuffle_nil. cbn [foldl].
  match goal with |- context [shuffle ro (map_to_list ?m)] =>
    let l := eval vm_compute in (map_to_list m) in
    replace (map_to_list m) with l by (vm_compute; reflexivity)
  end.
  rewrite shuffle_singleton.
  split; vm_compute; reflexivity.
Qed.

(** ** PrintIDs: truncation before sorting (C4) *)

(** C4 (the code departs from the claim).  [PrintIDs] cuts the slice to its
    first 100 entries before it sorts, and prints the notice when 100 or
    more entries remain.  With exactly 100 results the notice is printed
    although nothing was cut; with 101 results the entries displayed depend
    on the order in which the results were collected: collected in
    descending order, the smallest path [f1000] is not displayed. *)
Theorem PrintIDs_truncates_before_sorting :
  storeOf (samplePaths 101) = Ok sampleDB
  ∧ length (samplePaths 100) = 100%nat
  ∧ last (output (PrintIDs sampleDB (samplePaths 100) [])) = Some OutTruncated
  ∧ reverse (samplePaths 101) ≡ₚ samplePaths 101
  ∧ displayed (samplePaths 101) = samplePaths 100
  ∧ displayed (reverse (samplePaths 101)) = drop 1 (samplePaths 101)
  ∧ "f1000" ∉ displayed (reverse (samplePaths 101)).
Proof.
  split; [vm_compute; reflexivity|].
  split; [vm_compute; reflexivity|].
  split; [vm_compute; reflexivity|].
  split; [apply reverse_Permutation|].
  split; [vm_compute; reflexivity|].
  assert (Hd : displayed (reverse (samplePaths 101)) = drop 1 (samplePaths 101))
    by (vm_compute; reflexivity).
  split; [exact Hd|].
  rewrite Hd. apply (proj1 (bool_decide_eq_false _)). vm_compute. reflexivity.
Qed.

(** ** Decimal conversion *)

Lemma digits_head (d : Decimal.uint) :
  d ≠ Decimal.Nil →
  ∃ c s, NilZero.string_of_uint d = String c s
         ∧ Ascii.eqb c "-" = false ∧ Ascii.eqb c "+" = false.
Proof. destruct d; intros Hd; try done; eexists _, _; (split; [reflexivity|done]). Qed.

Lemma parseDigits_pos (p : positive) :
  parseDigits (NilZero.string_of_uint (Pos.to_uint p)) = Some (Npos p).
Proof.
  unfold parseDigits.
  rewrite NilZero.usu by apply DecimalPos.Unsigned.to_uint_nonnil.
  cbn. unfold N.of_uint. by rewrite DecimalPos.Unsigned.of_to.
Qed.

(** [Atoi] reads back what [Itoa] prints, for every Go [int]. *)
Lemma Atoi_Itoa (z : Z) : int_range z → Atoi (Itoa z) = Some z.
Proof.
  unfold int_range. intros Hz. destruct z as [|p|p].
  - reflexivity.
  - unfold Itoa. cbn [Z.to_int NilZero.string_of_int].
    destruct (digits_head (Pos.to_uint p)) as (c & s & Hs & Hm & Hp);
      [apply DecimalPos.Unsigned.to_uint_nonnil|].
    pose proof (parseDigits_pos p) as Hd. rewrite Hs in Hd |- *.
    unfold Atoi. rewrite Hm, Hp, Hd. cbn [mbind option_bind].
    destruct (N.ltb_spec (N.pos p) (2 ^ 63)) as [_|Hge]; [done|]. lia.
  - unfold Itoa. cbn [Z.to_int NilZero.string_of_int].
    unfold Atoi. rewrite Ascii.eqb_refl, parseDigits_pos. cbn [mbind option_bind].
    destruct (N.leb_spec (N.pos p) (2 ^ 63)) as [_|Hgt]; [done|]. lia.
Qed.

(** ** Projections of the store after the basic updates *)

Lemma Files_print db out : Files (print db out) = Files db.
Proof. reflexivity. Qed.

Lemma Files_setFiles db m : Files (setFiles db m) = m.
Proof. reflexivity. Qed.

Lemma Files_add db p s h ts :
  Files (add db p s h ts) = <[p := mkRecord p s h ts]> (Files db).
Proof. reflexivity. Qed.

Lemma testDB_entries : map_to_list (Files testDB) = testEntries.
Proof. vm_compute. reflexivity. Qed.

Lemma testDB_wf : store_wf (Files testDB).
Proof.
  intros k r Hk%elem_of_map_to_list. rewrite testDB_entries in Hk.
  unfold testEntries, int_range in *.
  repeat (apply elem_of_cons in Hk as [[= -> ->]|Hk]; [cbn; split; [reflexivity|lia]|]).
  by apply elem_of_nil in Hk.
Qed.

(** ** Deleting a record during duplicate resolution (C10) *)

Lemma Write_first_field (ro : RangeOrder) (db : DB) (rw : list string) :
  store_wf (Files db) → rw ∈ Write ro db → ∃ id, rw !! 0%nat = Some id ∧ is_Some (Files db !! id).
Proof.
  intros Hwf (e & -> & He)%list_elem_of_fmap.
  destruct e as [k r]. apply elem_of_range in He.
  destruct (Hwf _ _ He) as [Hp _]. exists k. cbn. rewrite Hp. eauto.
Qed.

(** C10.  For a valid 1-based index, [deleteFile] removes the record from
    [Files] whatever [os.Remove] answers: the store after the call is the
    store without the record.  When the removal fails the call reports
    [false], the record is absent all the same, and no row that [Write]
    produces afterwards is the row of that path. *)
Theorem deleteFile_removes_before_remove (ro : RangeOrder) (db : DB) (w : World)
    (ids : list ID) (num : string) (index : Z) :
  store_wf (Files db) →
  Atoi (TrimSpace num) = Some index →
  (1 ≤ index ≤ Z.of_nat (length ids))%Z →
  let id := ids !!! Z.to_nat (index - 1) in
  let db' := (deleteFile db w ids num).1.1 in
  Files db' = delete id (Files db)
  ∧ Files db' !! id = None
  ∧ (deleteFile db w ids num).2 = bool_decide (id ∈ removable w)
  ∧ (id ∉ removable w →
       (deleteFile db w ids num).2 = false
       ∧ last (output db') = Some (OutUnableToDelete id)
       ∧ ∀ rw, rw ∈ Write ro db' → rw !! 0%nat ≠ Some id).
Proof.
  intros Hwf Hnum Hidx id db'.
  assert (Hfiles : Files db' = delete id (Files db)).
  { subst db' id. unfold deleteFile. rewrite Hnum.
    destruct (Z.ltb_spec index 1); [lia|].
    destruct (Z.ltb_spec (Z.of_nat (length ids)) index); [lia|]. cbn [orb].
    unfold osRemove. case_bool_decide; reflexivity. }
  assert (Hok : (deleteFile db w ids num).2 = bool_decide (id ∈ removable w)).
  { subst id. unfold deleteFile. rewrite Hnum.
    destruct (Z.ltb_spec index 1); [lia|].
    destruct (Z.ltb_spec (Z.of_nat (length ids)) index); [lia|]. cbn [orb].
    unfold osRemove. case_bool_decide; reflexivity. }
  split; [exact Hfiles|]. split; [rewrite Hfiles; apply lookup_delete_eq|].
  split; [exact Hok|]. intros Hnot.
  split; [rewrite Hok; by apply bool_decide_eq_false|].
  split.
  - subst db' id. unfold deleteFile. rewrite Hnum.
    destruct (Z.ltb_spec index 1); [lia|].
    destruct (Z.ltb_spec (Z.of_nat (length ids)) index); [lia|]. cbn [orb].
    unfold osRemove. rewrite bool_decide_eq_false_2 by done.
    cbn. by rewrite last_snoc.
  - intros rw Hrw Hfirst.
    assert (Hwf' : store_wf (Files db')).
    { rewrite Hfiles. intros k r [_ Hk]%lookup_delete_Some. by apply Hwf. }
    destruct (Write_first_field ro db' rw Hwf' Hrw) as (k & Hk & [r Hr]).
    rewrite Hfirst in Hk. injection Hk as <-.
    rewrite Hfiles, lookup_delete_eq in Hr. done.
Qed.

(** The run of the test "failure deleting non-existent file": the first
    entry of the displayed group is deleted from the store although no such
    file can be removed. *)
Lemma deleteFile_removes_before_remove_witness :
  store_wf (Files testDB)
  ∧ Atoi (TrimSpace "1") = Some 1
  ∧ (1 ≤ 1 ≤ Z.of_nat (length ["bambam/baz.txt"; "bambam/foo-756381984.txt"]))%Z
  ∧ ("bambam/baz.txt" ∉ removable (mkWorld [] ∅))
  ∧ (Files (deleteFile testDB (mkWorld [] ∅)
              ["bambam/baz.txt"; "bambam/foo-756381984.txt"] "1").1.1)
      !! "bambam/baz.txt" = None.
Proof.
  assert (H1 : store_wf (Files testDB)) by exact testDB_wf.
  assert (H2 : Atoi (TrimSpace "1") = Some 1) by (vm_compute; reflexivity).
  assert (H3 : (1 ≤ 1 ≤ Z.of_nat (length ["bambam/baz.txt"; "bambam/foo-756381984.txt"]))%Z)
    by (vm_compute; split; discriminate).
  assert (H4 : "bambam/baz.txt" ∉ removable (mkWorld [] ∅)) by apply not_elem_of_empty.
  pose proof (deleteFile_removes_before_remove natural_order testDB (mkWorld [] ∅)
                ["bambam/baz.txt"; "bambam/foo-756381984.txt"] "1" 1 H1 H2 H3) as H.
  repeat (split; [assumption|]).
  exact (proj1 (proj2 H)).
Defined.

(** ** Round trip through the rows (C2) *)

Section RoundTrip.
Context `{Countable K} {A : Type}.

(** Storing pairs with distinct keys one after the other builds the map
    of the pairs. *)
Lemma foldl_insert_list_to_map (l : list (K * A)) :
  NoDup l.*1 →
  foldl (λ (m : gmap K A) e, <[e.1 := e.2]> m) ∅ l = list_to_map l.
Proof.
  induction l as [|[k x] l IH] using rev_ind; [done|].
  rewrite fmap_app, NoDup_app. intros (Hl & Hk & _).
  rewrite foldl_snoc, IH by done. cbn.
  rewrite list_to_map_snoc; [done|].
  intros Hin. apply (Hk k Hin). cbn. apply list_elem_of_here.
Qed.
End RoundTrip.

Lemma handleRecords_written (entries : list (string * FileRecord)) (db : DB) :
  (∀ e, e ∈ entries → int_range (Size e.2)) →
  handleRecords db ((λ e, [Path e.2; Itoa (Size e.2); Hash e.2]) <$> entries)
  = Ok (foldl addEntry db entries).
Proof.
  revert db. induction entries as [|e entries IH]; intros db Hr; [done|].
  cbn [fmap list_fmap handleRecords foldl].
  unfold handleRecord at 1. cbn [at_index lookup list_lookup bind].
  rewrite Atoi_Itoa by (apply Hr, list_elem_of_here). cbn [bind].
  apply IH. intros e' He'. apply Hr. by apply list_elem_of_further.
Qed.

Lemma Files_foldl_addEntry (entries : list (string * FileRecord)) (db : DB) :
  Files (foldl addEntry db entries)
  = foldl (λ m e, <[e.1 := e.2]> m) (Files db) ((λ e, (Path e.2, reloaded e.2)) <$> entries).
Proof.
  revert db. induction entries as [|e entries IH]; intros db; [done|].
  cbn [foldl fmap list_fmap]. by rewrite IH.
Qed.

Lemma triples_reloaded (m : gmap string FileRecord) :
  triples (reloaded <$> m) = triples m.
Proof.
  unfold triples. rewrite map_to_list_fmap.
  induction (map_to_list m) as [|[k r] l IH]; [done|].
  cbn. by rewrite IH.
Qed.

(** What [Load] rebuilds from the rows of [Write]. *)
Lemma Load_Write (ro : RangeOrder) (db : DB) :
  store_wf (Files db) →
  ∃ db', Load NewDB (Some (Write ro db)) = Ok db' ∧ Files db' = reloaded <$> Files db.
Proof.
  intros Hwf. eexists. split.
  - unfold Load, Write. apply handleRecords_written.
    intros [k r] He%elem_of_range. by apply (Hwf k r).
  - rewrite Files_foldl_addEntry. cbn [Files NewDB].
    assert (Heq : (λ e : string * FileRecord, (Path e.2, reloaded e.2)) <$> range ro (Files db)
                  = prod_map id reloaded <$> range ro (Files db)).
    { apply list_fmap_ext. intros i [k r] He%list_elem_of_lookup_2%elem_of_range.
      cbn. f_equal. by apply (Hwf k r). }
    rewrite Heq.
    assert (Hnd : NoDup (prod_map id reloaded <$> range ro (Files db)).*1).
    { rewrite <- list_fmap_compose.
      rewrite (list_fmap_ext _ fst (range ro (Files db))) by (by intros ? []).
      apply NoDup_range_keys. }
    rewrite foldl_insert_list_to_map by done.
    rewrite (list_to_map_proper _ (map_to_list (reloaded <$> Files db))); [|done|].
    + apply list_to_map_to_list.
    + rewrite map_to_list_fmap. by rewrite range_perm.
Qed.

(** C2.  For every well-formed store and every order in which [Write]
    walks [Files], loading the written rows into an empty store succeeds
    and yields the same [(path, size, hash)] triples, up to their order. *)
Theorem Write_Load_roundtrip (ro : RangeOrder) (db : DB) :
  store_wf (Files db) →
  ∃ db', Load NewDB (Some (Write ro db)) = Ok db'
         ∧ triples (Files db') ≡ₚ triples (Files db)
         ∧ length (Write ro db) = size (Files db)
         ∧ ∀ rw, rw ∈ Write ro db ↔
                 ∃ r, r ∈ (map_to_list (Files db)).*2 ∧ rw = [Path r; Itoa (Size r); Hash r].
Proof.
  intros Hwf. destruct (Load_Write ro db Hwf) as (db' & Hload & Hfiles).
  exists db'. split; [done|]. split; [by rewrite Hfiles, triples_reloaded|].
  split.
  - unfold Write. rewrite length_fmap, range_perm. apply length_map_to_list.
  - intros rw. unfold Write. rewrite list_elem_of_fmap. split.
    + intros ([k r] & -> & He). exists r. split; [|done].
      rewrite range_perm in He. apply list_elem_of_fmap. by exists (k, r).
    + intros (r & ([k r'] & -> & He)%list_elem_of_fmap & ->).
      exists (k, r'). split; [done|]. by rewrite range_perm.
Qed.


Lemma Write_Load_roundtrip_witness :
  store_wf (Files testDB)
  ∧ ∃ db', Load NewDB (Some (Write reverse_order testDB)) = Ok db'
           ∧ triples (Files db') ≡ₚ triples (Files testDB).
Proof.
  split; [exact testDB_wf|].
  destruct (Write_Load_roundtrip reverse_order testDB testDB_wf) as (db' & Hload & Hperm & _).
  exists db'. by split.
Defined.

(** ** The index invariant (C1) *)

Section Buckets.
Context `{Countable K}.
Implicit Types (m : gmap K (list string)) (k : K) (id : string).

Lemma append_to_here m k id : id ∈ append_to m k id !!! k.
Proof.
  unfold append_to. rewrite lookup_total_insert_eq. apply elem_of_app. right.
  apply list_elem_of_here.
Qed.

Lemma append_to_mono m k k' id x : x ∈ m !!! k' → x ∈ append_to m k id !!! k'.
Proof.
  unfold append_to. intros Hx. destruct (decide (k = k')) as [->|Hne].
  - rewrite lookup_total_insert_eq. apply elem_of_app. by left.
  - by rewrite lookup_total_insert_ne.
Qed.

Lemma foldl_append_to_mono (ks : list K) m k' id x :
  x ∈ m !!! k' → x ∈ foldl (λ m k, append_to m k id) m ks !!! k'.
Proof.
  revert m. induction ks as [|k ks IH]; intros m Hx; [done|].
  cbn. apply IH. by apply append_to_mono.
Qed.

Lemma foldl_append_to_here (ks : list K) m k id :
  k ∈ ks → id ∈ foldl (λ m k, append_to m k id) m ks !!! k.
Proof.
  revert m. induction ks as [|k0 ks IH]; intros m; [by intros ?%elem_of_nil|].
  intros [->|Hin]%elem_of_cons; cbn.
  - apply foldl_append_to_mono, append_to_here.
  - by apply IH.
Qed.
End Buckets.

Lemma add_complete db p s h :
  index_complete db → index_complete (add db p s h (pathToSearchTerms p)).
Proof.
  intros Hc id r. rewrite Files_add. intros Hl.
  apply lookup_insert_Some in Hl as [[<- <-]|[Hne Hl]]; cbn.
  - split; [done|]. split; [done|]. split; [apply append_to_here|].
    split; [apply append_to_here|]. intros t Ht. by apply foldl_append_to_here.
  - destruct (Hc id r Hl) as (Hp & Ht & Hs & Hh & Hterms).
    split; [done|]. split; [done|]. split; [by apply append_to_mono|].
    split; [by apply append_to_mono|].
    intros t Hin. apply foldl_append_to_mono. by apply Hterms.
Qed.

Global Instance shrinks_preorder : PreOrder shrinks.
Proof.
  split.
  - by intros db.
  - intros a b c (Hf & Hs & Hh & Ht) (Hf' & Hs' & Hh' & Ht'). unfold shrinks.
    rewrite Hs', Hh', Ht'. split; [by etrans|done].
Qed.

Lemma shrinks_complete db db' : shrinks db db' → index_complete db → index_complete db'.
Proof.
  intros (Hf & Hs & Hh & Ht) Hc id r Hl. unfold index_complete in Hc.
  rewrite Hs, Hh, Ht. apply Hc. by eapply lookup_weaken.
Qed.

Lemma shrinks_print db out : shrinks db (print db out).
Proof. done. Qed.

Lemma shrinks_setFiles db m : m ⊆ Files db → shrinks db (setFiles db m).
Proof. done. Qed.

Lemma shrinks_PrintIDs db ids ts : shrinks db (PrintIDs db ids ts).
Proof. unfold PrintIDs. by destruct (_ <=? _)%nat. Qed.

Lemma shrinks_deleteFile db w ids num : shrinks db (deleteFile db w ids num).1.1.
Proof.
  unfold deleteFile. destruct (Atoi _) as [index|]; [|done].
  destruct (_ || _); [done|].
  assert (Hd : shrinks db (setFiles (print db [OutDeleting (ids !!! Z.to_nat (index - 1))])
                             (delete (ids !!! Z.to_nat (index - 1)) (Files db)))).
  { apply (shrinks_setFiles (print db _)). apply delete_subseteq. }
  destruct (osRemove _ _) as [[] w1]; [done|]. etrans; [exact Hd|apply shrinks_print].
Qed.

Lemma shrinks_deleteFiles ids (nums : list string) db w :
  shrinks db (foldl (λ s num, (deleteFile s.1 s.2 ids num).1) (db, w) nums).1.
Proof.
  revert db w. induction nums as [|num nums IH]; intros db w; [done|].
  cbn [foldl fst snd]. pose proof (shrinks_deleteFile db w ids num) as Hs.
  destruct (deleteFile db w ids num) as [[db1 w1] ok]. cbn [fst snd] in *.
  etrans; [exact Hs|]. exact (IH db1 w1).
Qed.

Lemma shrinks_handleGroup total db w inp iter group :
  shrinks db (handleGroup total (db, w, inp, iter) group).1.1.1.
Proof.
  unfold handleGroup.
  set (db1 := print (PrintIDs (print db _) _ _) _).
  assert (H1 : shrinks db db1).
  { subst db1. etrans; [apply shrinks_print|]. etrans; [apply shrinks_PrintIDs|].
    apply shrinks_print. }
  destruct (Scanln w) as [[line|] w1]; [|done].
  destruct (_ =? _)%nat; [done|].
  pose proof (shrinks_deleteFiles (afterPrint (GroupIDs group)) (Split "," line) db1 w1) as H2.
  destruct (foldl _ _ _) as [db2 w2]. cbn in *. etrans; [exact H1|]. etrans; [exact H2|done].
Qed.

Lemma shrinks_handleDuplicateGroups ro db w groups :
  shrinks db (handleDuplicateGroups ro db w groups).1.
Proof.
  unfold handleDuplicateGroups.
  generalize (range ro groups).*2, "", 1%nat, (size groups). intros l.
  revert db w. induction l as [|g l IH]; intros db w inp iter total; [done|].
  cbn [foldl]. pose proof (shrinks_handleGroup total db w inp iter g) as Hg.
  destruct (handleGroup total (db, w, inp, iter) g) as [[[db1 w1] inp1] iter1].
  etrans; [exact Hg|apply IH].
Qed.

Lemma shrinks_Duplicates ro db w minLength : shrinks db (Duplicates ro db w minLength).1.
Proof.
  unfold Duplicates, duplicatesBySizeAndHash, duplicatesBySearchTerm.
  pose proof (shrinks_handleDuplicateGroups ro db w (sizeAndHashGroups ro db)) as H1.
  destruct (handleDuplicateGroups ro db w _) as [db1 w1].
  etrans; [exact H1|apply shrinks_handleDuplicateGroups].
Qed.

Lemma handleRecords_complete records db db' :
  handleRecords db records = Ok db' → index_complete db → index_complete db'.
Proof.
  revert db. induction records as [|rec records IH]; intros db; cbn.
  - by intros [= <-].
  - unfold handleRecord.
    destruct (at_index rec 0) as [p| |]; try done. cbn [bind].
    destruct (at_index rec 1) as [raw| |]; try done. cbn [bind].
    destruct (Atoi raw) as [s|].
    + destruct (at_index rec 2) as [h| |]; try done. cbn [bind].
      intros Hr Hc. eapply IH; [exact Hr|]. by apply add_complete.
    + cbn [bind]. intros Hr Hc. eapply IH; [exact Hr|].
      eapply shrinks_complete; [apply shrinks_print|done].
Qed.

Lemma handleMatch_complete db fs f db' :
  handleMatch db fs f = Some db' → index_complete db → index_complete db'.
Proof.
  unfold handleMatch. destruct (Stat fs f) as [s|]; [|done]. cbn.
  destruct (hashFile fs f _) as [h|]; [|done]. cbn.
  intros [= <-]. apply add_complete.
Qed.

Lemma addFound_complete fs (l : list string) st :
  index_complete st.1.1 → index_complete (foldl (addFound fs) st l).1.1.
Proof.
  revert st. induction l as [|f l IH]; intros [[db sk] cr]; [done|].
  cbn [foldl]. intros Hc. apply IH. unfold addFound.
  destruct (Files db !! f); [done|].
  destruct (handleMatch db fs f) as [db'|] eqn:Hm; cbn.
  - by eapply handleMatch_complete.
  - eapply shrinks_complete; [apply shrinks_print|done].
Qed.

Lemma removeMissing_subseteq root files (l : list (string * FileRecord)) st :
  (foldl (removeMissing root files) st l).1 ⊆ st.1.
Proof.
  revert st. induction l as [|[k r] l IH]; intros [m d]; [done|].
  cbn [foldl]. etrans; [apply IH|]. unfold removeMissing.
  repeat case_match; try done. apply delete_subseteq.
Qed.

Lemma handleMatches_complete ro db fs root files :
  index_complete db → index_complete (handleMatches ro db fs root files).
Proof.
  intros Hc. unfold handleMatches.
  pose proof (addFound_complete fs (range_set ro files) (db, 0%nat, 0%nat) Hc) as H1.
  destruct (foldl (addFound fs) _ _) as [[db1 sk] cr]. cbn in H1.
  pose proof (removeMissing_subseteq root files (range ro (Files db1)) (Files db1, 0%nat)) as H2.
  destruct (foldl (removeMissing root files) _ _) as [m d]. cbn in H2.
  eapply shrinks_complete; [|exact H1].
  etrans; [apply (shrinks_setFiles db1 m H2)|apply shrinks_print].
Qed.

Lemma Scan_complete ro fs roots db :
  index_complete db → index_complete (Scan ro db fs roots).1.
Proof.
  revert db. induction roots as [|root roots IH]; intros db Hc; [done|].
  cbn. destruct (collectFiles fs root) as [files|]; [|done].
  by apply IH, handleMatches_complete.
Qed.

Lemma step_complete ro db op db' :
  step ro db op = Ok db' → index_complete db → index_complete db'.
Proof.
  destruct op as [[records|]|fs roots|w minLength]; cbn.
  - apply handleRecords_complete.
  - done.
  - intros [= <-]. apply Scan_complete.
  - intros [= <-]. apply shrinks_complete, shrinks_Duplicates.
Qed.

(** C1, as the code has it.  After every sequence of [Load], [Scan] and
    duplicate resolution on a new store, each record of [Files] is stored
    under its path and is listed in the bucket of its size, of its hash and
    of each search term derived from its path. *)
Theorem indices_cover_Files (ro : RangeOrder) (ops : list Op) (db : DB) :
  run ro NewDB ops = Ok db → index_complete db.
Proof.
  assert (Hgen : ∀ db0, index_complete db0 → run ro db0 ops = Ok db → index_complete db).
  { induction ops as [|op ops IH]; intros db0 Hc; cbn.
    - by intros [= <-].
    - destruct (step ro db0 op) as [db1| |] eqn:Hs; try done. cbn.
      apply IH. by eapply step_complete. }
  apply Hgen. intros id r Hl. cbn in Hl. by rewrite lookup_empty in Hl.
Qed.

(** A load, a scan that adds one file and drops another, and a deletion
    answered at the prompt. *)
Lemma indices_cover_Files_witness :
  run natural_order NewDB scenarioOps = Ok scenarioDB
  ∧ dom (Files scenarioDB)
    = {["bambam/bar-1786396036.txt"; "bambam/baz.txt"; "bambam/new-file.txt"]}
  ∧ index_complete scenarioDB.
Proof.
  assert (Hrun : run natural_order NewDB scenarioOps = Ok scenarioDB)
    by (vm_compute; reflexivity).
  split; [exact Hrun|]. split; [vm_compute; reflexivity|].
  exact (indices_cover_Files natural_order scenarioOps scenarioDB Hrun).
Defined.

(** C1 as stated does not hold: a scan that finds a catalogued file gone
    removes its record from [Files] and leaves its path in the buckets. *)
Lemma indices_not_exact_after_scan :
  run natural_order NewDB
    [OpLoad (Some [row "r/a" 1 "c4ca4238a0b923820dcc509a6f75849b"]); OpScan emptyFS ["r"]]
  = Ok staleDB
  ∧ Files staleDB !! "r/a" = None
  ∧ "r/a" ∈ Sizes staleDB !!! 1
  ∧ ¬ index_exact staleDB.
Proof.
  assert (Hgone : Files staleDB !! "r/a" = None) by (vm_compute; reflexivity).
  assert (Hin : "r/a" ∈ Sizes staleDB !!! 1).
  { apply (proj1 (bool_decide_eq_true _)). vm_compute. reflexivity. }
  split; [vm_compute; reflexivity|]. split; [exact Hgone|]. split; [exact Hin|].
  intros [_ (Hs & _ & _)]. destruct (Hs _ _ Hin) as (r & Hr & _).
  rewrite Hgone in Hr. discriminate.
Qed.

(** ** Scanning an unchanged root again *)

Lemma handleMatches_unfold ro db fs root files :
  handleMatches ro db fs root files
  = let st := foldl (addFound fs) (db, 0%nat, 0%nat) (range_set ro files) in
    let rm := foldl (removeMissing root files) (Files st.1.1, 0%nat) (range ro (Files st.1.1)) in
    print (setFiles st.1.1 rm.1) [OutScanReport root (size files) st.1.2 st.2 rm.2].
Proof.
  unfold handleMatches. destruct (foldl (addFound fs) _ _) as [[db1 sk] cr]. cbn.
  by destruct (foldl (removeMissing root files) _ _) as [m d].
Qed.

Lemma handleMatch_None db db' fs f :
  handleMatch db fs f = None → handleMatch db' fs f = None.
Proof.
  unfold handleMatch. destruct (Stat fs f) as [s|]; [|done]. cbn.
  by destruct (hashFile fs f _).
Qed.

Lemma handleMatch_Files db fs f db' :
  handleMatch db fs f = Some db' →
  ∃ r, Path r = f ∧ Files db' = <[f := r]> (Files db).
Proof.
  unfold handleMatch. destruct (Stat fs f) as [s|]; [|done]. cbn.
  destruct (hashFile fs f _) as [h|]; [|done]. cbn. intros [= <-].
  by exists (mkRecord f s h (pathToSearchTerms f)).
Qed.

Lemma addFound_eq fs db sk cr f :
  addFound fs (db, sk, cr) f
  = match Files db !! f with
    | Some _ => (db, S sk, cr)
    | None =>
        match handleMatch db fs f with
        | None => (print db [OutScanFailure f], sk, cr)
        | Some db' => (db', sk, S cr)
        end
    end.
Proof. reflexivity. Qed.

(** The first loop: what it stores. *)
Lemma addFound_spec fs (l : list string) db sk cr :
  keyed (Files db) →
  let st := foldl (addFound fs) (db, sk, cr) l in
  keyed (Files st.1.1)
  ∧ (∀ f, is_Some (Files db !! f) → is_Some (Files st.1.1 !! f))
  ∧ (∀ f, f ∈ l → is_Some (Files st.1.1 !! f) ∨ ¬ readable fs f).
Proof.
  revert db sk cr. induction l as [|f l IH]; intros db sk cr Hk.
  { cbn. split; [done|]. split; [done|]. by intros f ?%elem_of_nil. }
  cbn [foldl]. rewrite addFound_eq.
  destruct (Files db !! f) as [r|] eqn:Hf.
  - destruct (IH db (S sk) cr Hk) as (Hk' & Hmono & Hl).
    split; [done|]. split; [done|].
    intros f' [->|Hin]%elem_of_cons; [|by apply Hl]. left. apply Hmono. by rewrite Hf.
  - destruct (handleMatch db fs f) as [db'|] eqn:Hm.
    + destruct (handleMatch_Files _ _ _ _ Hm) as (r & Hr & Hfiles).
      assert (Hk1 : keyed (Files db')).
      { rewrite Hfiles. intros id r' [[<- <-]|[_ Hl]]%lookup_insert_Some; [done|by apply Hk]. }
      destruct (IH db' sk (S cr) Hk1) as (Hk' & Hmono & Hl).
      split; [done|]. split.
      * intros f' Hsome. apply Hmono. rewrite Hfiles.
        destruct (decide (f = f')) as [->|Hne];
          [by rewrite lookup_insert_eq|by rewrite lookup_insert_ne].
      * intros f' [->|Hin]%elem_of_cons; [|by apply Hl]. left. apply Hmono.
        by rewrite Hfiles, lookup_insert_eq.
    + destruct (IH (print db [OutScanFailure f]) sk cr Hk) as (Hk' & Hmono & Hl).
      split; [done|]. split; [done|].
      intros f' [->|Hin]%elem_of_cons; [|by apply Hl]. right.
      unfold readable. rewrite (handleMatch_None _ NewDB _ _ Hm). by intros [? ?].
Qed.

(** The first loop on a root whose files are catalogued or unreadable:
    nothing is stored, and the catalogued ones are counted as skipped. *)
Lemma addFound_stable fs (l : list string) db sk cr :
  (∀ f, f ∈ l → is_Some (Files db !! f) ∨ ¬ readable fs f) →
  let st := foldl (addFound fs) (db, sk, cr) l in
  shrinks db st.1.1 ∧ Files st.1.1 = Files db
  ∧ st.1.2 = (sk + length (filter (λ f, is_Some (Files db !! f)) l))%nat
  ∧ st.2 = cr.
Proof.
  revert db sk cr. induction l as [|f l IH]; intros db sk cr Hl.
  { cbn. split; [done|]. split; [done|]. split; [lia|done]. }
  cbn [foldl]. rewrite addFound_eq.
  assert (Hl' : ∀ f', f' ∈ l → is_Some (Files db !! f') ∨ ¬ readable fs f').
  { intros f' Hin. apply Hl. by apply list_elem_of_further. }
  destruct (Files db !! f) as [r|] eqn:Hf.
  - destruct (IH db (S sk) cr Hl') as (Hs & Hfiles & Hsk & Hcr).
    split; [done|]. split; [done|]. split; [|done].
    rewrite Hsk, filter_cons_True by (by rewrite Hf). cbn. lia.
  - destruct (handleMatch db fs f) as [db'|] eqn:Hm.
    + exfalso. destruct (Hl f (list_elem_of_here _ _)) as [[r Hr]|Hnr]; [congruence|].
      apply Hnr. unfold readable. unfold handleMatch in *.
      destruct (Stat fs f) as [s|]; [|done]. cbn in *.
      destruct (hashFile fs f _) as [h|]; [|done]. by eexists.
    + destruct (IH (print db [OutScanFailure f]) sk cr Hl') as (Hs & Hfiles & Hsk & Hcr).
      split; [by etrans; [apply shrinks_print|]|]. split; [done|]. split; [|done].
      rewrite Hsk, filter_cons_False; [done|]. rewrite Hf. by intros [? ?].
Qed.

(** The second loop: a record goes exactly when it was visited and fails
    the test [kept]. *)
Lemma removeMissing_lookup root files (l : list (string * FileRecord)) m d id :
  (∀ k r, (k, r) ∈ l → Path r = k) →
  (foldl (removeMissing root files) (m, d) l).1 !! id
  = if bool_decide (id ∈ l.*1) && negb (kept root files id) then None else m !! id.
Proof.
  revert m d. induction l as [|[k r] l IH]; intros m d Hl; [done|].
  cbn [foldl]. assert (Hk : Path r = k) by (apply Hl, list_elem_of_here).
  assert (Hl' : ∀ k r, (k, r) ∈ l → Path r = k)
    by (intros ???; by apply Hl, list_elem_of_further).
  assert (Hstep : ∃ d', removeMissing root files (m, d) (k, r)
                        = (if kept root files k then m else delete k m, d')).
  { unfold removeMissing, kept. rewrite Hk.
    destruct (decide (m !! k = None)) as [Hnone|Hsome].
    - rewrite bool_decide_eq_true_2 by done. exists d.
      rewrite (delete_id _ _ Hnone). by destruct (negb _ || _).
    - rewrite bool_decide_eq_false_2 by done.
      destruct (HasPrefix k root); cbn; [|by eexists].
      destruct (bool_decide (k ∈ files)); by eexists. }
  destruct Hstep as [d' ->]. rewrite IH by done. cbn [fmap list_fmap fst].
  destruct (decide (id = k)) as [->|Hne].
  - rewrite (bool_decide_eq_true_2 (k ∈ k :: l.*1)) by apply list_elem_of_here.
    destruct (kept root files k) eqn:Hkept; cbn.
    + by rewrite andb_false_r.
    + rewrite andb_true_r. rewrite lookup_delete_eq. by destruct (bool_decide _).
  - assert (Hb : bool_decide (id ∈ k :: l.*1) = bool_decide (id ∈ l.*1)).
    { apply bool_decide_ext. rewrite elem_of_cons. split; [by intros [?|?]|by right]. }
    rewrite Hb. destruct (bool_decide _ && _); [done|].
    destruct (kept root files k); [done|]. by rewrite lookup_delete_ne.
Qed.

(** The second loop on records that all pass the test: nothing changes. *)
Lemma removeMissing_stable root files (l : list (string * FileRecord)) m d :
  (∀ k r, (k, r) ∈ l → Path r = k ∧ kept root files k = true) →
  foldl (removeMissing root files) (m, d) l = (m, d).
Proof.
  induction l as [|[k r] l IH]; intros Hl; [done|].
  cbn [foldl]. destruct (Hl k r (list_elem_of_here _ _)) as [Hk Hkept].
  assert (Hstep : removeMissing root files (m, d) (k, r) = (m, d)).
  { unfold removeMissing. unfold kept in Hkept. rewrite Hk.
    destruct (bool_decide (m !! k = None)); [done|].
    destruct (HasPrefix k root); cbn in *; [|done].
    by rewrite Hkept. }
  rewrite Hstep. apply IH. intros ???. by apply Hl, list_elem_of_further.
Qed.

(** The store after one scan of a root. *)
Lemma handleMatches_spec ro db fs root files :
  keyed (Files db) →
  let db1 := handleMatches ro db fs root files in
  keyed (Files db1)
  ∧ (∀ id r, Files db1 !! id = Some r → kept root files id = true)
  ∧ (∀ f, f ∈ files → is_Some (Files db1 !! f) ∨ ¬ readable fs f).
Proof.
  intros Hk. cbn zeta. rewrite handleMatches_unfold. cbn zeta.
  destruct (addFound_spec fs (range_set ro files) db 0%nat 0%nat Hk) as (HkA & _ & HlA).
  set (A := Files (foldl (addFound fs) (db, 0%nat, 0%nat) (range_set ro files)).1.1) in *.
  rewrite Files_print, Files_setFiles.
  assert (Hlook : ∀ id, (foldl (removeMissing root files) (A, 0%nat) (range ro A)).1 !! id
                        = if bool_decide (id ∈ (range ro A).*1) && negb (kept root files id)
                          then None else A !! id).
  { intros id. apply removeMissing_lookup. intros k r Hin%elem_of_range. by apply HkA. }
  split; [|split].
  - intros id r. rewrite Hlook. destruct (_ && _); [done|]. apply HkA.
  - intros id r. rewrite Hlook. intros Hr.
    destruct (kept root files id) eqn:Hkept; [done|].
    rewrite andb_true_r in Hr. case_bool_decide as Hin; [done|].
    exfalso. apply Hin. apply list_elem_of_fmap. exists (id, r). split; [done|].
    by apply elem_of_range.
  - intros f Hf. destruct (HlA f) as [Hsome|Hnr]; [by apply elem_of_range_set| |by right].
    left. rewrite Hlook.
    assert (Hkept : kept root files f = true).
    { unfold kept. rewrite (bool_decide_eq_true_2 _ Hf). apply orb_true_r. }
    by rewrite Hkept, andb_false_r.
Qed.

Lemma filter_all {A} (P : A → Prop) `{∀ x, Decision (P x)} (l : list A) :
  Forall P l → filter P l = l.
Proof. induction 1 as [|x l Hx Hl IH]; [done|]. by rewrite filter_cons_True, IH. Qed.

(** X1.  When a root is scanned twice with the same
    listing and the same file system, the second scan leaves the store as it
    is and reports nothing created and nothing deleted; it counts as skipped
    the listed files that the store holds, which is every listed file when
    all of them can be stat'ed and hashed. *)
Theorem rescan_unchanged (ro ro' : RangeOrder) (db : DB) (fs : FS) (root : string)
    (files : gset string) :
  keyed (Files db) →
  let db1 := handleMatches ro db fs root files in
  let db2 := handleMatches ro' db1 fs root files in
  Files db2 = Files db1
  ∧ Sizes db2 = Sizes db1 ∧ Hashes db2 = Hashes db1 ∧ SearchTerms db2 = SearchTerms db1
  ∧ last (output db2) = Some (OutScanReport root (size files) (catalogued db1 files) 0 0)
  ∧ ((∀ f, f ∈ files → readable fs f) → catalogued db1 files = size files).
Proof.
  intros Hk db1 db2.
  destruct (handleMatches_spec ro db fs root files Hk) as (Hk1 & Hkept & Hl). fold db1 in Hk1, Hkept, Hl.
  assert (Hl' : ∀ f, f ∈ range_set ro' files → is_Some (Files db1 !! f) ∨ ¬ readable fs f).
  { intros f Hf%elem_of_range_set. by apply Hl. }
  destruct (addFound_stable fs (range_set ro' files) db1 0%nat 0%nat Hl')
    as ((_ & HS & HH & HT) & HF & Hsk & Hcr).
  assert (Hdb2 : db2 = handleMatches ro' db1 fs root files) by done.
  rewrite handleMatches_unfold in Hdb2. cbn zeta in Hdb2.
  set (st := foldl (addFound fs) (db1, 0%nat, 0%nat) (range_set ro' files)) in *.
  rewrite HF in Hdb2.
  rewrite (removeMissing_stable root files (range ro' (Files db1)) (Files db1) 0%nat) in Hdb2.
  2:{ intros k r Hin%elem_of_range. split; [by apply Hk1|by eapply Hkept]. }
  cbn [fst snd] in Hdb2.
  assert (Hcat : st.1.2 = catalogued db1 files).
  { rewrite Hsk. unfold catalogued. cbn. by rewrite range_set_perm. }
  rewrite Hdb2. cbn [Files Sizes Hashes SearchTerms output print setFiles].
  split; [done|]. split; [done|]. split; [done|]. split; [done|].
  split; [by rewrite last_snoc, Hcat, Hcr|].
  intros Hread. unfold catalogued.
  rewrite filter_all; [done|].
  rewrite Forall_forall. intros f Hf%elem_of_elements.
  destruct (Hl f Hf) as [?|Hnr]; [done|]. by destruct (Hnr (Hread f Hf)).
Qed.

Lemma rescan_unchanged_witness :
  keyed (Files testDB)
  ∧ (∀ f, f ∈ ({["r/a"; "r/b"]} : gset string) → readable twoFilesFS f)
  ∧ last (output (handleMatches reverse_order
                    (handleMatches natural_order testDB twoFilesFS "r" {["r/a"; "r/b"]})
                    twoFilesFS "r" {["r/a"; "r/b"]}))
    = Some (OutScanReport "r" 2 2 0 0).
Proof.
  assert (Hk : keyed (Files testDB)) by (intros id r Hr; by apply testDB_wf).
  assert (Hread : ∀ f, f ∈ ({["r/a"; "r/b"]} : gset string) → readable twoFilesFS f).
  { intros f _. unfold readable. by eexists. }
  pose proof (rescan_unchanged natural_order reverse_order testDB twoFilesFS "r"
                {["r/a"; "r/b"]} Hk) as (_ & _ & _ & _ & Hlast & Hcat).
  split; [exact Hk|]. split; [exact Hread|].
  assert (Hsize : size ({["r/a"; "r/b"]} : gset string) = 2%nat) by (vm_compute; reflexivity).
  rewrite Hlast, (Hcat Hread), Hsize. reflexivity.
Defined.

(** A listed file that cannot be stat'ed is neither created nor skipped,
    in the first scan and in the second: the count of skipped files can be
    smaller than the number of files found. *)
Lemma rescan_skips_fewer_than_found :
  keyed (Files NewDB)
  ∧ size ({["r/a"]} : gset string) = 1%nat
  ∧ last (output (handleMatches natural_order
                    (handleMatches natural_order NewDB unreadableFS "r" {["r/a"]})
                    unreadableFS "r" {["r/a"]}))
    = Some (OutScanReport "r" 1 0 0 0).
Proof.
  split; [by intros id r Hr|]. split; vm_compute; reflexivity.
Qed.

(** ** Search returns the intersection of the match sets *)

Lemma slowFound_elem (entries : list (string * list string)) needle id :
  id ∈ slowFound entries needle
  ↔ ∃ e, e ∈ entries ∧ Contains e.1 needle = true ∧ id ∈ e.2.
Proof.
  unfold slowFound.
  assert (Hgen : ∀ acc,
    id ∈ foldl (λ found entry, if Contains entry.1 needle then found ++ entry.2 else found)
           acc entries
    ↔ id ∈ acc ∨ ∃ e, e ∈ entries ∧ Contains e.1 needle = true ∧ id ∈ e.2).
  { induction entries as [|e entries IH]; intros acc; cbn [foldl].
    - split; [by left|]. intros [?|(e & []%elem_of_nil & _)]. done.
    - rewrite IH. destruct (Contains e.1 needle) eqn:Hc.
      + rewrite elem_of_app. split.
        * intros [[?|?]|(e' & ? & ? & ?)]; [by left| |].
          -- right. exists e. split; [apply list_elem_of_here|done].
          -- right. exists e'. split; [by apply list_elem_of_further|done].
        * intros [?|(e' & [->|?]%elem_of_cons & ? & ?)];
            [by left; left|by left; right|]. right. by exists e'.
      + split.
        * intros [?|(e' & ? & ? & ?)]; [by left|]. right. exists e'.
          split; [by apply list_elem_of_further|done].
        * intros [?|(e' & [->|?]%elem_of_cons & ? & ?)]; [by left|congruence|].
          right. by exists e'. }
  rewrite Hgen. split; [|by right]. by intros [[]%elem_of_nil|?].
Qed.

Lemma slowFound_match ro db needle id :
  id ∈ slowFound (range ro (SearchTerms db)) needle ↔ matchSet db slow needle id.
Proof.
  rewrite slowFound_elem. unfold matchSet. cbn. split.
  - intros ([term ids] & He%elem_of_range & Hc & Hid). by exists term, ids.
  - intros (term & ids & Hl & Hc & Hid). exists (term, ids). by rewrite elem_of_range.
Qed.

Lemma length_eqb_0 {A} (l : list A) : (length l =? 0)%nat = bool_decide (l = []).
Proof. by destruct l. Qed.

(** [slowCollectIDs] yields the match set of every token, or nothing when
    the match set of some token is empty. *)
Lemma slowCollect_cases ro db needles results :
  let found := slowFound (range ro (SearchTerms db)) in
  (Forall (λ n, found n ≠ []) needles
   ∧ slowCollect ro db needles results = (results ++ (found <$> needles), []))
  ∨ (Exists (λ n, found n = []) needles ∧ (slowCollect ro db needles results).1 = []).
Proof.
  intros found. revert results. induction needles as [|n needles IH]; intros results.
  { left. split; [done|]. cbn. by rewrite app_nil_r. }
  cbn [slowCollect]. fold (found n). rewrite length_eqb_0.
  case_bool_decide as Hn.
  - right. split; [by left|done].
  - destruct (IH (results ++ [found n])) as [[Hall Heq]|[Hex Heq]].
    + left. split; [by constructor|]. rewrite Heq. by rewrite <- app_assoc.
    + right. split; [by right|done].
Qed.

Lemma fastCollect_cases db needles results :
  let bucket := λ n, SearchTerms db !!! n in
  (Forall (λ n, is_Some (SearchTerms db !! n) ∧ bucket n ≠ []) needles
   ∧ fastCollect db needles results = (results ++ (bucket <$> needles), []))
  ∨ (Exists (λ n, bucket n = []) needles ∧ (fastCollect db needles results).1 = []).
Proof.
  intros bucket. revert results. induction needles as [|n needles IH]; intros results.
  { left. split; [done|]. cbn. by rewrite app_nil_r. }
  cbn [fastCollect]. subst bucket. cbn beta.
  destruct (SearchTerms db !! n) as [ids|] eqn:Hn.
  - rewrite length_eqb_0. case_bool_decide as Hids.
    + right. split; [|done]. left. by rewrite lookup_total_alt, Hn.
    + assert (Hb : SearchTerms db !!! n = ids) by (by rewrite lookup_total_alt, Hn).
      destruct (IH (results ++ [ids])) as [[Hall Heq]|[Hex Heq]].
      * left. split; [constructor; [by rewrite Hb|done]|].
        rewrite Heq, fmap_cons, Hb. by rewrite <- app_assoc.
      * right. split; [by right|done].
  - right. split; [|done]. left. by rewrite lookup_total_alt, Hn.
Qed.

Lemma intersectFrom_elem (idGroup : list string) (rest : list (list string)) id :
  id ∈ intersectFrom idGroup rest ↔ id ∈ idGroup ∧ ∀ g, g ∈ rest → id ∈ g.
Proof.
  revert idGroup. induction rest as [|termIDs rest IH]; intros idGroup; cbn [intersectFrom].
  { split; [|by intros [? _]]. intros ?. split; [done|]. by intros g ?%elem_of_nil. }
  rewrite length_eqb_0. unfold intersectIDs.
  assert (Hf : id ∈ filter (λ x, x ∈ termIDs) idGroup ↔ id ∈ idGroup ∧ id ∈ termIDs).
  { rewrite list_elem_of_filter. tauto. }
  case_bool_decide as He.
  - rewrite He in Hf. split; [by intros ?%elem_of_nil|].
    intros [Hg Hall]. apply Hf. split; [done|]. apply Hall, list_elem_of_here.
  - rewrite IH, Hf. split.
    + intros [[? ?] Hall]. split; [done|]. by intros g [->|?]%elem_of_cons; [|apply Hall].
    + intros [? Hall]. split; [split; [done|apply Hall, list_elem_of_here]|].
      intros g ?. by apply Hall, list_elem_of_further.
Qed.

Lemma intersectAllIDs_elem (groups : list (list string)) id :
  groups ≠ [] →
  ∃ ids, intersectAllIDs groups = Ok ids ∧ (id ∈ ids ↔ ∀ g, g ∈ groups → id ∈ g).
Proof.
  destruct groups as [|g rest]; [done|]. intros _. eexists. split; [reflexivity|].
  cbn [drop]. rewrite intersectFrom_elem. split.
  - intros [? Hall] g' [->|?]%elem_of_cons; [done|by apply Hall].
  - intros Hall. split; [apply Hall, list_elem_of_here|].
    intros g' ?. by apply Hall, list_elem_of_further.
Qed.

(** The ids found are in the match set of every token. *)
Lemma searchResult_elem ro db searchType needles id :
  (searchType = slow ∨ searchType = fast) → needles ≠ [] →
  id ∈ searchResult ro db searchType needles
  ↔ ∀ needle, needle ∈ needles → matchSet db searchType needle id.
Proof.
  intros Hty Hne. unfold searchResult, collectIDs.
  destruct Hty as [-> | ->].
  - change (String.eqb slow fast) with false. change (String.eqb slow slow) with true.
    cbn match. unfold slowCollectIDs.
    destruct (slowCollect_cases ro db needles []) as [[Hall Heq]|[Hex Heq]]; rewrite Heq.
    + cbn [fst app].
      destruct (intersectAllIDs_elem (slowFound (range ro (SearchTerms db)) <$> needles) id)
        as (ids & -> & Hids); [by destruct needles|].
      rewrite Hids. split.
      * intros H n Hn. apply (proj1 (slowFound_match ro db n id)), H.
        by apply list_elem_of_fmap_2.
      * intros H g (n & -> & Hn)%list_elem_of_fmap.
        by apply (proj2 (slowFound_match ro db n id)), H.
    + cbn. split; [by intros ?%elem_of_nil|]. intros H.
      apply Exists_exists in Hex as (n & Hn & Hnil).
      apply (H n), (proj2 (slowFound_match ro db n id)) in Hn. rewrite Hnil in Hn.
      by apply elem_of_nil in Hn.
  - change (String.eqb fast fast) with true. cbn match. unfold fastCollectIDs.
    assert (Hm : ∀ n, matchSet db fast n id ↔ id ∈ SearchTerms db !!! n).
    { intros n. unfold matchSet. change (String.eqb fast fast) with true. cbn match.
      rewrite lookup_total_alt. destruct (SearchTerms db !! n) as [ids|]; cbn.
      - split; [by intros (? & [= <-] & ?)|]. intros ?. by exists ids.
      - split; [by intros (? & [=] & _)|by intros ?%elem_of_nil]. }
    destruct (fastCollect_cases db needles []) as [[Hall Heq]|[Hex Heq]]; rewrite Heq.
    + cbn [fst app].
      destruct (intersectAllIDs_elem ((λ n, SearchTerms db !!! n) <$> needles) id)
        as (ids & -> & Hids); [by destruct needles|].
      rewrite Hids. split.
      * intros H n Hn. apply (proj2 (Hm n)), H.
        by apply (list_elem_of_fmap_2 (λ n, SearchTerms db !!! n)).
      * intros H g (n & -> & Hn)%list_elem_of_fmap. by apply (proj1 (Hm n)), H.
    + cbn. split; [by intros ?%elem_of_nil|]. intros H.
      apply Exists_exists in Hex as (n & Hn & Hnil).
      apply (H n), (proj1 (Hm n)) in Hn. rewrite Hnil in Hn. by apply elem_of_nil in Hn.
Qed.

(** X2.  A search in slow or fast mode with at least one token finds
    exactly the paths that are in the match set of every token. *)
Theorem Search_intersects (ro : RangeOrder) (db : DB) (searchType : string)
    (needles : list string) (id : ID) :
  (searchType = slow ∨ searchType = fast) → needles ≠ [] →
  id ∈ searchResult ro db searchType needles
  ↔ ∀ needle, needle ∈ needles → matchSet db searchType needle id.
Proof. apply searchResult_elem. Qed.

Lemma Search_intersects_witness :
  (slow = slow ∨ slow = fast) ∧ ["bar"; "1786396036"] ≠ []
  ∧ ("bambam/bar-1786396036.txt" ∈ searchResult natural_order testDB slow ["bar"; "1786396036"]
     ↔ ∀ needle, needle ∈ ["bar"; "1786396036"]
                 → matchSet testDB slow needle "bambam/bar-1786396036.txt").
Proof.
  assert (H1 : slow = slow ∨ slow = fast) by (by left).
  assert (H2 : ["bar"; "1786396036"] ≠ []) by done.
  split; [exact H1|]. split; [exact H2|].
  exact (Search_intersects natural_order testDB slow ["bar"; "1786396036"]
           "bambam/bar-1786396036.txt" H1 H2).
Defined.

Lemma output_PrintIDs db ids ts :
  output (PrintIDs db ids ts) = output db ++ printedLines db ids ts.
Proof.
  unfold PrintIDs, printedLines. destruct (_ <=? _)%nat; cbn.
  - by rewrite <- app_assoc.
  - by rewrite app_nil_r.
Qed.



(** ** Sorting *)

Section SortingFacts.
Context {A : Type} (less : A → A → bool) (R : relation A).
Hypothesis less_true : ∀ x y, less x y = true → R x y.
Hypothesis less_false : ∀ x y, less x y = false → R y x.

Lemma insert_sorted_perm (x : A) (l : list A) : insert_sorted less x l ≡ₚ x :: l.
Proof.
  induction l as [|y l IH]; [done|]. cbn. destruct (less x y); [done|].
  rewrite IH. apply Permutation_swap.
Qed.

Lemma insertion_sort_perm (l : list A) : insertion_sort less l ≡ₚ l.
Proof.
  unfold insertion_sort.
  assert (Hgen : ∀ acc, foldl (λ sorted x, insert_sorted less x sorted) acc l ≡ₚ acc ++ l).
  { induction l as [|x l IH]; intros acc; cbn; [by rewrite app_nil_r|].
    rewrite IH, insert_sorted_perm. by rewrite <- Permutation_middle. }
  apply Hgen.
Qed.

Lemma insert_sorted_Sorted (x : A) (l : list A) :
  Sorted R l → Sorted R (insert_sorted less x l).
Proof.
  induction l as [|y l IH]; intros Hs; cbn.
  - by repeat constructor.
  - destruct (less x y) eqn:Hxy.
    + constructor; [done|]. constructor. by apply less_true.
    + apply Sorted_inv in Hs as [Hs Hhd]. constructor; [by apply IH|].
      destruct l as [|z l]; cbn; [constructor; by apply less_false|].
      destruct (less x z); constructor; [by apply less_false|]. by apply HdRel_inv in Hhd.
Qed.

Lemma insertion_sort_Sorted (l : list A) : Sorted R (insertion_sort less l).
Proof.
  unfold insertion_sort.
  assert (Hgen : ∀ acc, Sorted R acc →
            Sorted R (foldl (λ sorted x, insert_sorted less x sorted) acc l)).
  { induction l as [|x l IH]; intros acc Hacc; cbn; [done|].
    by apply IH, insert_sorted_Sorted. }
  apply Hgen. constructor.
Qed.
End SortingFacts.

(** *** The order of Go strings *)

Lemma ascii_compare_N (a b : ascii) :
  Ascii.compare a b = N.compare (N_of_ascii a) (N_of_ascii b).
Proof. reflexivity. Qed.

Lemma string_compare_trans (x y z : string) :
  String.compare x y ≠ Gt → String.compare y z ≠ Gt → String.compare x z ≠ Gt.
Proof.
  revert y z. induction x as [|a x IH]; intros [|b y] [|c z]; cbn; try done.
  rewrite !ascii_compare_N.
  destruct (N.compare_spec (N_of_ascii a) (N_of_ascii b)) as [Hab|Hab|Hab];
    destruct (N.compare_spec (N_of_ascii b) (N_of_ascii c)) as [Hbc|Hbc|Hbc];
    destruct (N.compare_spec (N_of_ascii a) (N_of_ascii c)) as [Hac|Hac|Hac];
    try done; try lia.
  apply IH.
Qed.

Lemma ltb_false_path_le (a b : string) : String.ltb b a = false ↔ path_le a b.
Proof.
  unfold path_le, String.ltb, String.leb. rewrite (String.compare_antisym a b).
  by destruct (String.compare b a).
Qed.

Global Instance path_le_trans : Transitive path_le.
Proof.
  intros x y z. unfold path_le, String.leb. intros Hxy Hyz.
  pose proof (string_compare_trans x y z) as Ht.
  destruct (String.compare x y), (String.compare y z), (String.compare x z);
    try done; exfalso; by apply Ht.
Qed.

Lemma ltb_asym (x y : string) : String.ltb x y = true → String.ltb y x = false.
Proof.
  unfold String.ltb. rewrite (String.compare_antisym y x). by destruct (String.compare x y).
Qed.

(** [slices.Sort] and the [sort.Slice] of [PrintIDs] on paths. *)
Lemma sort_paths_sorted (ids : list string) :
  StronglySorted path_le (insertion_sort String.ltb ids).
Proof.
  apply Sorted_StronglySorted; [apply path_le_trans|].
  apply insertion_sort_Sorted.
  - intros x y Hlt. apply ltb_false_path_le. by apply ltb_asym.
  - intros x y. apply ltb_false_path_le.
Qed.

Lemma sort_paths_perm (ids : list string) : insertion_sort String.ltb ids ≡ₚ ids.
Proof. apply insertion_sort_perm. Qed.

(** ** What PrintIDs displays *)

Lemma displayed_take (ids : list string) :
  displayed ids = insertion_sort String.ltb (take maxLines ids).
Proof.
  unfold displayed. destruct (Nat.ltb_spec maxLines (length ids)); [done|].
  by rewrite take_ge.
Qed.

(** X4.  [PrintIDs] displays the first 100 entries of the slice it is
    given, in ascending order of path: at most 100 lines, numbered from 1,
    each with the highlighted path and the size in whole MiB of the record
    (of the zero record when the id is not in [Files]); the notice
    "... (truncated)" follows exactly when the slice has 100 entries or
    more. *)
Theorem PrintIDs_displays (db : DB) (ids : list ID) (searchTerms : list string) :
  displayed ids ≡ₚ take maxLines ids
  ∧ StronglySorted path_le (displayed ids)
  ∧ (length (displayed ids) ≤ maxLines)%nat
  ∧ (∀ i id, displayed ids !! i = Some id →
       output (PrintIDs db ids searchTerms) !! (length (output db) + i)%nat
       = Some (OutResult (i + 1)
                 (FindHighlights (Path (Files db !!! id)) searchTerms)
                 (Size (Files db !!! id) `quot` MB)))
  ∧ output (PrintIDs db ids searchTerms) = output db ++ printedLines db ids searchTerms
  ∧ (OutTruncated ∈ printedLines db ids searchTerms ↔ (maxLines ≤ length ids)%nat).
Proof.
  assert (Hperm : displayed ids ≡ₚ take maxLines ids)
    by (rewrite displayed_take; apply sort_paths_perm).
  assert (Hlen : length (displayed ids) = (length ids `min` maxLines)%nat).
  { rewrite Hperm, length_take. lia. }
  split; [done|]. split; [rewrite displayed_take; apply sort_paths_sorted|].
  split; [lia|]. split.
  - intros i id Hi. rewrite output_PrintIDs. unfold printedLines.
    rewrite lookup_app_r by lia. replace (length (output db) + i - length (output db))%nat
      with i by lia.
    rewrite lookup_app_l by (rewrite length_imap; by eapply lookup_lt_Some).
    rewrite list_lookup_imap, Hi. reflexivity.
  - split; [apply output_PrintIDs|]. unfold printedLines. rewrite elem_of_app. split.
    + intros [Hin|Hin].
      * apply elem_of_lookup_imap in Hin as (i & id & Heq & _). discriminate.
      * destruct (Nat.leb_spec maxLines (length (displayed ids))); [lia|].
        by apply elem_of_nil in Hin.
    + intros Hge. right. destruct (Nat.leb_spec maxLines (length (displayed ids))); [|lia].
      apply list_elem_of_here.
Qed.

(** ** What a scan does to the store *)

Lemma handleMatch_scanned db fs f :
  handleMatch db fs f
  = (λ r, add db f (Size r) (Hash r) (pathToSearchTerms f)) <$> scanned fs f.
Proof.
  unfold handleMatch, scanned. destruct (Stat fs f) as [s|]; [|done]. cbn.
  by destruct (hashFile fs f _).
Qed.

Lemma scanned_Path fs f r : scanned fs f = Some r → Path r = f.
Proof.
  unfold scanned. destruct (Stat fs f) as [s|]; [|done]. cbn.
  destruct (hashFile fs f _); [|done]. by intros [= <-].
Qed.

Lemma readable_scanned fs f : readable fs f ↔ is_Some (scanned fs f).
Proof.
  unfold readable. rewrite handleMatch_scanned. by rewrite fmap_is_Some.
Qed.

(** The first loop, entry by entry. *)
Lemma addFound_lookup fs (l : list string) db sk cr id :
  Files (foldl (addFound fs) (db, sk, cr) l).1.1 !! id
  = match Files db !! id with
    | Some r => Some r
    | None => if bool_decide (id ∈ l) then scanned fs id else None
    end.
Proof.
  revert db sk cr. induction l as [|f l IH]; intros db sk cr.
  { cbn. by destruct (Files db !! id). }
  cbn [foldl]. rewrite addFound_eq.
  assert (Hcons : ∀ b : bool, id ≠ f →
            (if bool_decide (id ∈ f :: l) then scanned fs id else None)
            = (if bool_decide (id ∈ l) then scanned fs id else None)).
  { intros _ Hne. rewrite (bool_decide_ext (id ∈ f :: l) (id ∈ l)); [done|].
    rewrite elem_of_cons. split; [by intros [?|?]|by right]. }
  destruct (Files db !! f) as [r|] eqn:Hf.
  - rewrite IH. destruct (decide (id = f)) as [->|Hne]; [by rewrite Hf|].
    by rewrite (Hcons true Hne).
  - rewrite handleMatch_scanned. destruct (scanned fs f) as [r|] eqn:Hs; cbn.
    + rewrite IH, Files_add. destruct (decide (id = f)) as [->|Hne].
      * rewrite lookup_insert_eq, Hf.
        rewrite bool_decide_eq_true_2 by apply list_elem_of_here. rewrite Hs.
        unfold scanned in Hs. destruct (Stat fs f) as [s|]; [|done]. cbn in Hs.
        destruct (hashFile fs f _); [|done]. by injection Hs as <-.
      * rewrite lookup_insert_ne by done. by rewrite (Hcons true Hne).
    + rewrite IH, Files_print. destruct (decide (id = f)) as [->|Hne].
      * rewrite Hf, Hs. by do 2 destruct (bool_decide _).
      * by rewrite (Hcons true Hne).
Qed.

(** X5.  One scan of a root, record by record, for a store that keeps
    every record under its path: a record whose path has the root as a
    string prefix and is not in the listing is removed; every other record
    stays exactly as it was (a catalogued file is never stat'ed or hashed
    again); a listed file that was not catalogued is added with its size,
    hash and search terms if it can be stat'ed and hashed, and is left out
    otherwise. *)
Theorem handleMatches_reconciles (ro : RangeOrder) (db : DB) (fs : FS) (root : string)
    (files : gset string) (id : ID) :
  keyed (Files db) →
  Files (handleMatches ro db fs root files) !! id = reconciled db fs root files id
  ∧ keyed (Files (handleMatches ro db fs root files)).
Proof.
  intros Hk. split; [|by apply handleMatches_spec].
  rewrite handleMatches_unfold. cbn zeta. rewrite Files_print, Files_setFiles.
  destruct (addFound_spec fs (range_set ro files) db 0%nat 0%nat Hk) as (HkA & _ & _).
  rewrite removeMissing_lookup by (intros k r Hin%elem_of_range; by apply HkA).
  unfold reconciled. destruct (kept root files id) eqn:Hkept; cbn.
  - rewrite andb_false_r, addFound_lookup.
    by rewrite (bool_decide_ext _ _ (elem_of_range_set ro files id)).
  - rewrite andb_true_r. case_bool_decide as Hin; [done|].
    destruct (Files _ !! id) as [r|] eqn:Hr; [|done].
    exfalso. apply Hin, list_elem_of_fmap. exists (id, r). split; [done|].
    by apply elem_of_range.
Qed.

Lemma handleMatches_reconciles_witness :
  keyed (Files testDB)
  ∧ Files (handleMatches natural_order testDB twoFilesFS "bambam/b" {["r/a"; "r/b"]})
      !! "bambam/baz.txt" = reconciled testDB twoFilesFS "bambam/b" {["r/a"; "r/b"]} "bambam/baz.txt"
  ∧ reconciled testDB twoFilesFS "bambam/b" {["r/a"; "r/b"]} "bambam/baz.txt" = None
  ∧ reconciled testDB twoFilesFS "bambam/b" {["r/a"; "r/b"]} "r/a"
    = Some (mkRecord "r/a" 3 "900150983cd24fb0d6963f7d28e17f72" ["a"]).
Proof.
  assert (Hk : keyed (Files testDB)) by (intros id r Hr; by apply testDB_wf).
  split; [exact Hk|].
  split; [exact (proj1 (handleMatches_reconciles natural_order testDB twoFilesFS "bambam/b"
                          {["r/a"; "r/b"]} "bambam/baz.txt" Hk))|].
  split; vm_compute; reflexivity.
Defined.

(** ** The counters of a scan *)

Lemma filter_ext_in {A} (P Q : A → Prop) `{∀ x, Decision (P x)} `{∀ x, Decision (Q x)}
    (l : list A) :
  (∀ x, x ∈ l → P x ↔ Q x) → filter P l = filter Q l.
Proof.
  induction l as [|x l IH]; intros Hl; [done|].
  rewrite !filter_cons. rewrite IH by (intros y Hy; by apply Hl, list_elem_of_further).
  pose proof (Hl x (list_elem_of_here _ _)) as Hx.
  destruct (decide (P x)), (decide (Q x)); tauto.
Qed.

Lemma addFound_counts fs (l : list string) db sk cr :
  NoDup l →
  (foldl (addFound fs) (db, sk, cr) l).1.2
  = (sk + length (filter (λ f, is_Some (Files db !! f)) l))%nat
  ∧ (foldl (addFound fs) (db, sk, cr) l).2
  = (cr + length (filter (λ f, Files db !! f = None ∧ readable fs f) l))%nat.
Proof.
  revert db sk cr. induction l as [|f l IH]; intros db sk cr Hnd.
  { cbn. split; lia. }
  apply NoDup_cons in Hnd as [Hf Hnd]. cbn [foldl]. rewrite addFound_eq.
  destruct (Files db !! f) as [r|] eqn:Hl.
  - destruct (IH db (S sk) cr Hnd) as [-> ->].
    rewrite filter_cons_True by (by rewrite Hl).
    rewrite (filter_cons_False (λ f, Files db !! f = None ∧ readable fs f))
      by (rewrite Hl; by intros [? _]).
    split; cbn; lia.
  - rewrite (filter_cons_False (λ f, is_Some (Files db !! f)))
      by (rewrite Hl; by intros [? ?]).
    destruct (handleMatch db fs f) as [db'|] eqn:Hm.
    + destruct (IH db' sk (S cr) Hnd) as [-> ->].
      destruct (handleMatch_Files _ _ _ _ Hm) as (r & _ & Hfiles).
      assert (Heq : ∀ x, x ∈ l → Files db' !! x = Files db !! x).
      { intros x Hx. rewrite Hfiles, lookup_insert_ne; [done|]. by intros ->. }
      rewrite (filter_ext_in (λ f, is_Some (Files db' !! f)) (λ f, is_Some (Files db !! f)))
        by (intros x Hx; by rewrite Heq).
      rewrite (filter_ext_in (λ f, Files db' !! f = None ∧ readable fs f)
                 (λ f, Files db !! f = None ∧ readable fs f))
        by (intros x Hx; by rewrite Heq).
      rewrite (filter_cons_True (λ f, Files db !! f = None ∧ readable fs f)).
      2:{ split; [done|]. unfold readable. rewrite handleMatch_scanned in *.
          destruct (scanned fs f); [by eexists|done]. }
      split; cbn; lia.
    + destruct (IH (print db [OutScanFailure f]) sk cr Hnd) as [-> ->].
      rewrite (filter_cons_False (λ f, Files db !! f = None ∧ readable fs f)).
      2:{ intros [_ Hr]. unfold readable in Hr.
          rewrite (handleMatch_None _ NewDB _ _ Hm) in Hr. by destruct Hr. }
      split; cbn; lia.
Qed.

Lemma removeMissing_count root files (l : list (string * FileRecord)) m d :
  NoDup l.*1 →
  (∀ k r, (k, r) ∈ l → is_Some (m !! k) ∧ Path r = k) →
  (foldl (removeMissing root files) (m, d) l).2
  = (d + length (filter (λ e, kept root files e.1 = false) l))%nat.
Proof.
  revert m d. induction l as [|[k r] l IH]; intros m d Hnd Hl.
  { cbn. lia. }
  cbn [fmap list_fmap] in Hnd. apply NoDup_cons in Hnd as [Hk Hnd].
  destruct (Hl k r (list_elem_of_here _ _)) as [Hsome Hp]. cbn [foldl].
  assert (Hstep : removeMissing root files (m, d) (k, r)
                  = if kept root files k then (m, d) else (delete k m, S d)).
  { unfold removeMissing, kept. rewrite Hp.
    rewrite bool_decide_eq_false_2 by (by apply not_eq_None_Some).
    destruct (HasPrefix k root); cbn; [|done]. by destruct (bool_decide _). }
  rewrite Hstep. rewrite filter_cons. cbn [fst].
  destruct (kept root files k) eqn:Hkept.
  - rewrite decide_False by done. apply IH; [done|].
    intros k' r' Hin. by apply Hl, list_elem_of_further.
  - rewrite decide_True by done. rewrite IH; [cbn; lia|done|].
    intros k' r' Hin. destruct (Hl k' r' (list_elem_of_further _ _ _ Hin)) as [Hs' Hp'].
    split; [|done]. rewrite lookup_delete_ne; [done|].
    intros ->. apply Hk. apply list_elem_of_fmap. by exists (k', r').
Qed.

(** X6.  The line a scan of one root reports, for a store that keeps
    every record under its path: found is the size of the listing, skipped
    the number of listed files that were catalogued, created the number of
    listed files that were not catalogued and could be stat'ed and hashed,
    deleted the number of records whose path has the root as a string prefix
    and is not in the listing. *)
Theorem handleMatches_reports (ro : RangeOrder) (db : DB) (fs : FS) (root : string)
    (files : gset string) :
  keyed (Files db) →
  last (output (handleMatches ro db fs root files))
  = Some (OutScanReport root (size files) (catalogued db files) (creatable db fs files)
            (removable_records db root files)).
Proof.
  intros Hk. rewrite handleMatches_unfold. cbn zeta. cbn [output print]. rewrite last_snoc.
  destruct (addFound_counts fs (range_set ro files) db 0%nat 0%nat (NoDup_range_set ro files))
    as [-> ->].
  destruct (addFound_spec fs (range_set ro files) db 0%nat 0%nat Hk) as (HkA & _ & _).
  set (A := Files (foldl (addFound fs) (db, 0%nat, 0%nat) (range_set ro files)).1.1) in *.
  rewrite removeMissing_count.
  2:{ apply NoDup_range_keys. }
  2:{ intros k r Hin%elem_of_range. split; [by eexists|by apply HkA]. }
  do 2 f_equal.
  - unfold catalogued. cbn. by rewrite range_set_perm.
  - unfold creatable. cbn. by rewrite range_set_perm.
  - unfold removable_records. cbn. rewrite range_perm. apply Permutation_length.
    apply NoDup_Permutation; [apply NoDup_filter, NoDup_map_to_list..|].
    intros [k r]. rewrite !list_elem_of_filter, !elem_of_map_to_list. cbn [fst].
    assert (HA : kept root files k = false → A !! k = Files db !! k).
    { intros Hkept. subst A. rewrite addFound_lookup.
      destruct (Files db !! k); [done|]. unfold kept in Hkept.
      apply orb_false_iff in Hkept as [_ Hin]. apply bool_decide_eq_false in Hin.
      rewrite bool_decide_eq_false_2; [done|]. by rewrite elem_of_range_set. }
    split; intros [Hkept Hl]; (split; [done|]); by rewrite HA in *.
Qed.

Lemma handleMatches_reports_witness :
  keyed (Files testDB)
  ∧ last (output (handleMatches reverse_order testDB twoFilesFS "bambam/b" {["r/a"; "r/b"]}))
    = Some (OutScanReport "bambam/b" 2 0 2 2).
Proof.
  assert (Hk : keyed (Files testDB)) by (intros id r Hr; by apply testDB_wf).
  split; [exact Hk|].
  rewrite (handleMatches_reports reverse_order testDB twoFilesFS "bambam/b" {["r/a"; "r/b"]} Hk).
  vm_compute. reflexivity.
Defined.

(** ** Duplicate resolution *)

Lemma chosen_Some ids num id :
  chosen ids num = Some id →
  ∃ index, Atoi (TrimSpace num) = Some index
           ∧ (1 ≤ index ≤ Z.of_nat (length ids))%Z
           ∧ ids !!! Z.to_nat (index - 1) = id.
Proof.
  unfold chosen. destruct (Atoi _) as [index|]; [|done]. cbn.
  destruct (Z.ltb_spec index 1); [done|].
  destruct (Z.ltb_spec (Z.of_nat (length ids)) index); [done|]. cbn.
  intros Hl. exists index. split; [done|]. split; [lia|].
  by apply list_lookup_total_correct.
Qed.

Lemma deleteFile_spec (db : DB) (w : World) (ids : list ID) (num : string) :
  let db' := (deleteFile db w ids num).1.1 in
  let w' := (deleteFile db w ids num).1.2 in
  let ok := (deleteFile db w ids num).2 in
  Sizes db' = Sizes db ∧ Hashes db' = Hashes db ∧ SearchTerms db' = SearchTerms db
  ∧ lines w' = lines w
  ∧ match chosen ids num with
    | None =>
        Files db' = Files db ∧ removable w' = removable w ∧ ok = false
        ∧ ∃ line, output db' = output db ++ [line]
                  ∧ (line = OutInvalidNumber num ∨ ∃ index, line = OutInvalidIndex index)
    | Some id =>
        Files db' = delete id (Files db)
        ∧ removable w' = removable w ∖ {[id]}
        ∧ ok = bool_decide (id ∈ removable w)
    end.
Proof.
  cbn zeta. unfold deleteFile, chosen.
  destruct (Atoi (TrimSpace num)) as [index|]; cbn [mbind option_bind].
  2:{ repeat (split; [done|]). eexists. split; [done|]. by left. }
  destruct ((index <? 1)%Z || (Z.of_nat (length ids) <? index)%Z) eqn:Hrange.
  { repeat (split; [done|]). eexists. split; [done|]. right. by eexists. }
  apply orb_false_iff in Hrange as [H1%Z.ltb_ge H2%Z.ltb_ge].
  assert (Hlt : (Z.to_nat (index - 1) < length ids)%nat) by lia.
  destruct (lookup_lt_is_Some_2 ids _ Hlt) as [id Hid].
  rewrite Hid, (list_lookup_total_correct _ _ _ Hid). unfold osRemove.
  case_bool_decide as Hin; cbn.
  - done.
  - repeat (split; [done|]). split; [|done].
    apply set_eq. intros x. rewrite elem_of_difference, elem_of_singleton.
    split; [|by intros [? _]]. intros Hx. split; [done|]. by intros ->.
Qed.

(** X7.  What one answer does in [deleteFile].  An answer that is not a
    number, or a number outside 1..len(ids), changes nothing but the output:
    no record and no file is removed and the call reports [false].  A valid
    answer removes the record of the selected id; the call reports [true]
    exactly when [os.Remove] could remove the file, and only that file is
    removed. *)
Theorem deleteFile_cases (db : DB) (w : World) (ids : list ID) (num : string) :
  let db' := (deleteFile db w ids num).1.1 in
  let w' := (deleteFile db w ids num).1.2 in
  let ok := (deleteFile db w ids num).2 in
  Sizes db' = Sizes db ∧ Hashes db' = Hashes db ∧ SearchTerms db' = SearchTerms db
  ∧ lines w' = lines w
  ∧ match chosen ids num with
    | None =>
        Files db' = Files db ∧ removable w' = removable w ∧ ok = false
        ∧ ∃ line, output db' = output db ++ [line]
                  ∧ (line = OutInvalidNumber num ∨ ∃ index, line = OutInvalidIndex index)
    | Some id =>
        Files db' = delete id (Files db)
        ∧ removable w' = removable w ∖ {[id]}
        ∧ ok = bool_decide (id ∈ removable w)
    end.
Proof. apply deleteFile_spec. Qed.














(** ** Loading rows *)

Lemma handleRecord_cases db record :
  (shortRow record ∧ handleRecord db record = Panic)
  ∨ (¬ shortRow record ∧ ¬ sizeParses record
     ∧ handleRecord db record
       = Ok (print db [OutUnableToParseSize (record !!! 0%nat) (record !!! 1%nat)]))
  ∨ (¬ shortRow record ∧ ∃ size,
       Atoi (record !!! 1%nat) = Some size
       ∧ handleRecord db record
         = Ok (add db (record !!! 0%nat) size (record !!! 2%nat)
                 (pathToSearchTerms (record !!! 0%nat)))).
Proof.
  unfold handleRecord, shortRow, sizeParses, at_index.
  destruct record as [|p [|raw [|h rest]]]; cbn.
  - left. split; [left; lia|done].
  - left. split; [left; lia|done].
  - destruct (Atoi raw) as [size|] eqn:Hraw; cbn.
    + left. split; [right; split; [done|by eexists]|done].
    + right. left. split; [intros [?|[_ [? ?]]]; [lia|done]|]. split; [by intros [? ?]|done].
  - destruct (Atoi raw) as [size|] eqn:Hraw; cbn.
    + right. right. split; [intros [?|[? _]]; lia|]. by exists size.
    + right. left. split; [intros [?|[? _]]; lia|]. split; [by intros [? ?]|done].
Qed.

Lemma add_same_maps db db' p s h ts :
  same_maps db db' → same_maps (add db p s h ts) (add db' p s h ts).
Proof. intros (Hf & HS & HH & HT). unfold same_maps, add. cbn. by rewrite Hf, HS, HH, HT. Qed.

Lemma handleRecords_skips records db1 db2 :
  same_maps db1 db2 → ¬ Exists shortRow records →
  ∃ db1' db2',
    handleRecords db1 records = Ok db1'
    ∧ handleRecords db2 (filter sizeParses records) = Ok db2'
    ∧ same_maps db1' db2'
    ∧ output db1' = output db1 ++ omap diagnostic records
    ∧ output db2' = output db2.
Proof.
  revert db1 db2. induction records as [|rec records IH]; intros db1 db2 Hm Hshort.
  { exists db1, db2. cbn. by rewrite app_nil_r. }
  assert (Hrec : ¬ shortRow rec) by (intros ?; apply Hshort; by left).
  assert (Hrest : ¬ Exists shortRow records) by (intros ?; apply Hshort; by right).
  rewrite filter_cons. cbn [handleRecords omap list_omap].
  destruct (handleRecord_cases db1 rec) as [[? _]|[(_ & Hnp & ->)|(_ & size & Hsize & ->)]];
    [done|..]; cbn [bind].
  - rewrite decide_False by done.
    destruct (IH (print db1 [OutUnableToParseSize (rec !!! 0%nat) (rec !!! 1%nat)]) db2)
      as (db1' & db2' & -> & -> & Hm' & Ho1 & Ho2); [done|done|].
    exists db1', db2'. repeat (split; [done|]). split; [|done].
    rewrite Ho1. unfold diagnostic. unfold sizeParses in Hnp.
    destruct (Atoi (rec !!! 1%nat)); [by destruct Hnp|]. cbn. by rewrite <- app_assoc.
  - rewrite decide_True by (unfold sizeParses; by rewrite Hsize).
    cbn [handleRecords].
    destruct (handleRecord_cases db2 rec) as [[? _]|[(_ & Hnp & _)|(_ & size' & Hsize' & ->)]];
      [done|by destruct Hnp; unfold sizeParses; rewrite Hsize|]. cbn [bind].
    assert (size' = size) as -> by congruence.
    destruct (IH (add db1 (rec !!! 0%nat) size (rec !!! 2%nat) (pathToSearchTerms (rec !!! 0%nat)))
                 (add db2 (rec !!! 0%nat) size (rec !!! 2%nat) (pathToSearchTerms (rec !!! 0%nat))))
      as (db1' & db2' & -> & -> & Hm' & Ho1 & Ho2); [by apply add_same_maps|done|].
    exists db1', db2'. repeat (split; [done|]). split; [|done].
    rewrite Ho1. unfold diagnostic. by rewrite Hsize.
Qed.

Lemma handleRecords_short records db :
  Exists shortRow records → handleRecords db records = Panic.
Proof.
  revert db. induction records as [|rec records IH]; intros db Hex; [by inversion Hex|].
  cbn [handleRecords].
  destruct (handleRecord_cases db rec) as [[_ ->]|[(Hns & _ & ->)|(Hns & size & _ & ->)]];
    [done|..]; cbn [bind]; apply IH; by inversion Hex.
Qed.

(** X10.  [Load] of a readable backing file ends in a run-time panic
    exactly when some row has fewer than two fields, or has two fields of
    which the second parses as a size.  Otherwise it succeeds; a row whose
    size does not parse adds one diagnostic and nothing else, so the maps of
    the store are those obtained from the rows whose size parses. *)
Theorem Load_rows (db : DB) (records : list (list string)) :
  (Exists shortRow records → Load db (Some records) = Panic)
  ∧ (¬ Exists shortRow records →
       ∃ db' db'',
         Load db (Some records) = Ok db'
         ∧ Load db (Some (filter sizeParses records)) = Ok db''
         ∧ same_maps db' db''
         ∧ output db' = output db ++ omap diagnostic records
         ∧ output db'' = output db).
Proof.
  split; [apply handleRecords_short|]. intros Hs.
  by apply (handleRecords_skips records db db).
Qed.

Lemma Load_rows_witness :
  ¬ Exists shortRow [["a"; "x"]; ["b"; "2"; "h"; "more"]]
  ∧ ∃ db', Load NewDB (Some [["a"; "x"]; ["b"; "2"; "h"; "more"]]) = Ok db'
           ∧ output db' = output NewDB ++ omap diagnostic [["a"; "x"]; ["b"; "2"; "h"; "more"]].
Proof.
  assert (Hs : ¬ Exists shortRow [["a"; "x"]; ["b"; "2"; "h"; "more"]]).
  { intros Hex. apply Exists_cons in Hex as [[H|[_ [z H]]]|Hex]; [cbn in H; lia|discriminate H|].
    apply Exists_cons in Hex as [[H|[H _]]|Hex]; [cbn in H; lia|discriminate H|].
    by apply Exists_nil in Hex. }
  split; [exact Hs|].
  destruct (proj2 (Load_rows NewDB [["a"; "x"]; ["b"; "2"; "h"; "more"]]) Hs)
    as (db' & db'' & Hl & _ & _ & Ho & _).
  exists db'. by split.
Defined.

(** ** Scanning several roots *)

(** X11.  [Scan] handles the roots in the order given and stops at the
    first root whose listing fails: scanning [roots1 ++ roots2] is scanning
    [roots1] and, if that ended without error, scanning [roots2] on the
    resulting store; after an error the later roots are not touched. *)
Theorem Scan_app (ro : RangeOrder) (db : DB) (fs : FS) (roots1 roots2 : list string) :
  Scan ro db fs (roots1 ++ roots2)
  = match Scan ro db fs roots1 with
    | (db1, None) => Scan ro db1 fs roots2
    | (db1, Some root) => (db1, Some root)
    end.
Proof.
  revert db. induction roots1 as [|root roots1 IH]; intros db; [done|].
  cbn [app Scan]. destruct (collectFiles fs root) as [files|]; [apply IH|done].
Qed.

(** ** Exact indices after loading distinct paths *)

Section BucketsElem.
Context `{Countable K}.
Implicit Types (m : gmap K (list string)) (k : K) (id : string).

Lemma append_to_elem m k k' id x :
  x ∈ append_to m k id !!! k' → x ∈ m !!! k' ∨ (x = id ∧ k' = k).
Proof.
  unfold append_to. destruct (decide (k = k')) as [->|Hne].
  - rewrite lookup_total_insert_eq, elem_of_app, list_elem_of_singleton.
    intros [?|Hx]; [by left|]. subst x. by right.
  - rewrite lookup_total_insert_ne by done. by left.
Qed.

Lemma foldl_append_to_elem (ks : list K) m k' id x :
  x ∈ foldl (λ m k, append_to m k id) m ks !!! k' → x ∈ m !!! k' ∨ (x = id ∧ k' ∈ ks).
Proof.
  revert m. induction ks as [|k ks IH]; intros m; cbn; [by left|].
  intros [[?|[Hx Hk]]%append_to_elem|[Hx ?]]%IH.
  - by left.
  - subst. right. split; [done|apply list_elem_of_here].
  - right. split; [done|by apply list_elem_of_further].
Qed.
End BucketsElem.

Lemma add_sound db p s h ts :
  Files db !! p = None → index_sound db → index_sound (add db p s h ts).
Proof.
  intros Hfresh (HS & HH & HT).
  assert (Hold : ∀ id r, Files db !! id = Some r →
            Files (add db p s h ts) !! id = Some r).
  { intros id r Hr. rewrite Files_add, lookup_insert_ne; [done|]. intros ->. congruence. }
  assert (Hnew : Files (add db p s h ts) !! p = Some (mkRecord p s h ts))
    by (by rewrite Files_add, lookup_insert_eq).
  split; [|split]; cbn [Sizes Hashes SearchTerms add].
  - intros s' id [Hin|[Hx Hk]]%append_to_elem; [|subst].
    + destruct (HS _ _ Hin) as (r & Hr & Hs). exists r. split; [by apply Hold|done].
    + by eexists.
  - intros h' id [Hin|[Hx Hk]]%append_to_elem; [|subst].
    + destruct (HH _ _ Hin) as (r & Hr & Hs). exists r. split; [by apply Hold|done].
    + by eexists.
  - intros t id [Hin|[Hx Hin]]%foldl_append_to_elem; [|subst].
    + destruct (HT _ _ Hin) as (r & Hr & Hs). exists r. split; [by apply Hold|done].
    + by eexists.
Qed.

Lemma handleRecords_sound records db db' :
  NoDup (loadedPaths records) →
  (∀ p, p ∈ loadedPaths records → Files db !! p = None) →
  index_sound db →
  handleRecords db records = Ok db' → index_sound db'.
Proof.
  revert db. induction records as [|rec records IH]; intros db Hnd Hfresh Hs.
  { cbn. by intros [= <-]. }
  cbn [handleRecords]. unfold loadedPaths in *. rewrite filter_cons in Hnd, Hfresh.
  destruct (handleRecord_cases db rec) as [[_ ->]|[(_ & Hnp & ->)|(_ & size & Hsize & ->)]];
    [done|..]; cbn [bind].
  - rewrite decide_False in Hnd, Hfresh by done. by apply IH.
  - rewrite decide_True in Hnd, Hfresh by (unfold sizeParses; by rewrite Hsize).
    cbn [fmap list_fmap] in Hnd, Hfresh. apply NoDup_cons in Hnd as [Hp Hnd].
    apply IH; [done| |].
    + intros p Hin. rewrite Files_add, lookup_insert_ne by (intros <-; done).
      by apply Hfresh, list_elem_of_further.
    + apply add_sound; [|done]. apply Hfresh, list_elem_of_here.
Qed.

(** X12.  When the rows that [Load] adds to a new store have pairwise
    distinct paths, the three indices are exact afterwards: a path is in the
    bucket of a size, of a hash or of a search term exactly when [Files]
    holds its record with that size, that hash or that term. *)
Theorem Load_distinct_paths_exact (records : list (list string)) (db : DB) :
  NoDup (loadedPaths records) →
  Load NewDB (Some records) = Ok db →
  index_exact db.
Proof.
  intros Hnd Hload. split.
  - eapply handleRecords_complete; [exact Hload|]. intros id r Hr. cbn in Hr.
    by rewrite lookup_empty in Hr.
  - eapply handleRecords_sound; [exact Hnd| | |exact Hload].
    + intros p _. apply lookup_empty.
    + cbn. split; [|split]; intros k id Hin; cbn in Hin;
        rewrite lookup_total_empty in Hin; by apply elem_of_nil in Hin.
Qed.

Lemma Load_distinct_paths_exact_witness :
  NoDup (loadedPaths testRows) ∧ Load NewDB (Some testRows) = Ok testDB ∧ index_exact testDB.
Proof.
  assert (Hnd : NoDup (loadedPaths testRows)).
  { assert (Heq : loadedPaths testRows
                  = ["bambam/foo-756381984.txt"; "bambam/bar-1786396036.txt";
                     "bambam/baz.txt"; "bambam/quix-1786396036.txt"])
      by (vm_compute; reflexivity).
    rewrite Heq. apply (proj1 (bool_decide_eq_true _)). vm_compute. reflexivity. }
  assert (Hl : Load NewDB (Some testRows) = Ok testDB) by (vm_compute; reflexivity).
  split; [exact Hnd|]. split; [exact Hl|].
  exact (Load_distinct_paths_exact testRows testDB Hnd Hl).
Defined.

(** ** The candidate groups *)

Section Put.
Context `{Countable K} {V : Type}.
Implicit Types (g : gmap K V) (kvs : list (K * option V)).

Lemma foldl_put_lookup kvs g k :
  NoDup kvs.*1 →
  foldl put g kvs !! k
  = match (list_to_map kvs : gmap K (option V)) !! k with
    | Some (Some v) => Some v
    | _ => g !! k
    end.
Proof.
  revert g. induction kvs as [|[k0 ov] kvs IH]; intros g Hnd; [done|].
  cbn [fmap list_fmap fst] in Hnd. apply NoDup_cons in Hnd as [Hk0 Hnd].
  cbn [foldl]. rewrite IH by done. rewrite list_to_map_cons.
  destruct (decide (k = k0)) as [->|Hne].
  - rewrite lookup_insert_eq, (not_elem_of_list_to_map_1 kvs k0 Hk0).
    unfold put. cbn. destruct ov; [by rewrite lookup_insert_eq|done].
  - rewrite lookup_insert_ne by done.
    destruct (list_to_map kvs !! k) as [[v|]|]; [done|..];
      unfold put; cbn; destruct ov; by rewrite ?lookup_insert_ne.
Qed.

Lemma foldl_as_put {E} (f : gmap K V → E → gmap K V) (P : E → K * option V)
    (l : list E) g :
  (∀ g e, f g e = put g (P e)) → foldl f g l = foldl put g (P <$> l).
Proof.
  intros Hf. revert g. induction l as [|e l IH]; intros g; [done|].
  cbn. by rewrite Hf, IH.
Qed.

Lemma foldl_put_mjoin {E} (F : E → list (K * option V)) (l : list E) g :
  foldl (λ g e, foldl put g (F e)) g l = foldl put g (mjoin (F <$> l)).
Proof.
  revert g. induction l as [|e l IH]; intros g; [done|].
  cbn. by rewrite foldl_app, IH.
Qed.
End Put.

Lemma NoDup_mjoin_tagged {E K T} (tag : E → T) (tagOf : K → T) (F : E → list K)
    (l : list E) :
  NoDup (tag <$> l) →
  (∀ e, e ∈ l → NoDup (F e)) →
  (∀ e k, e ∈ l → k ∈ F e → tagOf k = tag e) →
  NoDup (mjoin (F <$> l)).
Proof.
  induction l as [|e l IH]; intros Hnd Hin Htag; [constructor|].
  cbn [fmap list_fmap] in *. apply NoDup_cons in Hnd as [He Hnd]. cbn.
  apply NoDup_app. split; [apply Hin, list_elem_of_here|]. split.
  - intros k Hk (ks & Hks & (e' & -> & He')%list_elem_of_fmap)%list_elem_of_join.
    apply He. apply list_elem_of_fmap. exists e'. split; [|done].
    rewrite <- (Htag e k (list_elem_of_here _ _) Hk).
    by rewrite (Htag e' k (list_elem_of_further _ _ _ He') Hks).
  - apply IH; [done|..]; intros; [apply Hin|apply Htag]; by try apply list_elem_of_further.
Qed.

(** *** Groups by search term *)

Lemma addTermGroup_put minLength groups entry :
  addTermGroup minLength groups entry
  = put groups (entry.1, termGroup minLength entry.1 entry.2).
Proof.
  unfold addTermGroup, put, termGroup.
  destruct (length entry.2 <? 2)%nat; [reflexivity|].
  destruct (Z.of_nat (String.length entry.1) <? minLength)%Z; reflexivity.
Qed.

(** X13.  The search-term pass makes one candidate group per bucket of
    [SearchTerms] that has at least two ids and whose term is at least
    [minLength] bytes long: the group is stored under the term, holds the
    bucket as it is and the term as the only token to highlight.  Which
    groups there are does not depend on the iteration order. *)
Theorem searchTermGroups_lookup (ro : RangeOrder) (db : DB) (minLength : Z) (term : string) :
  searchTermGroups ro db minLength !! term
  = ids ← SearchTerms db !! term; termGroup minLength term ids.
Proof.
  unfold searchTermGroups.
  rewrite (foldl_as_put _ (λ e, (e.1, termGroup minLength e.1 e.2)))
    by (intros; apply addTermGroup_put).
  assert (Hkeys : ((λ e : string * list string, (e.1, termGroup minLength e.1 e.2))
                     <$> range ro (SearchTerms db)).*1 = (range ro (SearchTerms db)).*1).
  { rewrite <- list_fmap_compose. by apply list_fmap_ext. }
  rewrite foldl_put_lookup by (rewrite Hkeys; apply NoDup_range_keys).
  rewrite lookup_empty.
  destruct (SearchTerms db !! term) as [ids|] eqn:Hterm; cbn.
  - assert (Hin : (term, termGroup minLength term ids)
                  ∈ (λ e : string * list string, (e.1, termGroup minLength e.1 e.2))
                      <$> range ro (SearchTerms db)).
    { apply list_elem_of_fmap. exists (term, ids). split; [done|]. by apply elem_of_range. }
    apply elem_of_list_to_map in Hin; [|rewrite Hkeys; apply NoDup_range_keys].
    rewrite Hin. by destruct (termGroup minLength term ids).
  - rewrite (not_elem_of_list_to_map_1 _ term); [done|]. rewrite Hkeys.
    intros ([k ids] & Hk & Hin%elem_of_range)%list_elem_of_fmap. cbn in Hk. subst k.
    congruence.
Qed.

(** *** Groups by size and hash *)

Lemma Itoa_inj (z1 z2 : Z) : Itoa z1 = Itoa z2 → z1 = z2.
Proof.
  assert (Hparse : ∀ z, NilZero.int_of_string (Itoa z) = Some (Z.to_int z)).
  { intros z. unfold Itoa. apply NilZero.isi; destruct z; cbn; try discriminate;
      intros [= Hnil]; by apply DecimalPos.Unsigned.to_uint_nonnil in Hnil. }
  intros Heq. pose proof (Hparse z1) as H1. rewrite Heq, Hparse in H1.
  injection H1 as H1. by rewrite <- (DecimalZ.of_to z1), <- (DecimalZ.of_to z2), H1.
Qed.

Lemma append_inv_head (h s t : string) : h +:+ s = h +:+ t → s = t.
Proof. induction h as [|c h IH]; cbn; [done|]. intros [= Heq]. by apply IH. Qed.

Global Instance groupID_inj hash : Inj (=) (=) (groupID hash).
Proof.
  intros s1 s2 Heq. unfold groupID in Heq. apply append_inv_head in Heq.
  cbn in Heq. injection Heq as Heq. by apply Itoa_inj.
Qed.

Lemma beforeDash_groupID hash size : dashFree hash = true → beforeDash (groupID hash size) = hash.
Proof.
  unfold groupID. induction hash as [|c hash IH]; [done|].
  change (dashFree (String c hash)) with (negb (Ascii.eqb c "-") && dashFree hash).
  change (beforeDash (String c hash +:+ "-" +:+ Itoa size))
    with (if Ascii.eqb c "-" then "" else String c (beforeDash (hash +:+ "-" +:+ Itoa size))).
  intros [Hc Hrest]%andb_true_iff. apply negb_true_iff in Hc. rewrite Hc.
  by rewrite IH.
Qed.

Lemma partitionBySize_lookup db (ids : list string) size :
  partitionBySize db ids !! size
  = if bool_decide (filter (λ id, sizeOf db id = size) ids = []) then None
    else Some (filter (λ id, sizeOf db id = size) ids).
Proof.
  unfold partitionBySize. induction ids as [|id ids IH] using rev_ind; [done|].
  rewrite foldl_snoc, filter_app. unfold append_to at 1. fold (sizeOf db id).
  destruct (decide (sizeOf db id = size)) as [Heq|Hne].
  - rewrite Heq, lookup_insert_eq, lookup_total_alt, IH.
    rewrite (filter_cons_True _ id []) by done. rewrite filter_nil.
    rewrite (bool_decide_eq_false_2 (_ ++ [id] = [])) by (by intros [_ ?]%app_eq_nil).
    by case_bool_decide as Hnil; [rewrite Hnil|].
  - rewrite lookup_insert_ne, IH by done.
    rewrite (filter_cons_False _ id []) by done. by rewrite filter_nil, app_nil_r.
Qed.

Lemma addHashGroups_put ro db groups entry :
  addHashGroups ro db groups entry = foldl put groups (hashPairs ro db entry).
Proof.
  unfold addHashGroups, hashPairs. destruct (length entry.2 <? 2)%nat; [done|].
  by apply foldl_as_put.
Qed.

Lemma sizeAndHashGroups_put ro db :
  sizeAndHashGroups ro db = foldl put ∅ (mjoin (hashPairs ro db <$> range ro (Hashes db))).
Proof.
  unfold sizeAndHashGroups. rewrite <- foldl_put_mjoin.
  generalize (∅ : gmap string SearchGroup).
  induction (range ro (Hashes db)) as [|e l IH]; intros g; [done|].
  cbn. by rewrite addHashGroups_put, IH.
Qed.

Lemma fst_mjoin {E K V} (F : E → list (K * V)) (l : list E) :
  (mjoin (F <$> l)).*1 = mjoin ((λ e, (F e).*1) <$> l).
Proof.
  induction l as [|e l IH]; [done|].
  change (mjoin (F <$> e :: l)) with (F e ++ mjoin (F <$> l)).
  change (mjoin ((λ e, (F e).*1) <$> e :: l)) with ((F e).*1 ++ mjoin ((λ e, (F e).*1) <$> l)).
  by rewrite fmap_app, IH.
Qed.

Lemma hashPairs_keys ro db entry :
  (hashPairs ro db entry).*1
  = if (length entry.2 <? 2)%nat then []
    else groupID entry.1 <$> (range ro (partitionBySize db entry.2)).*1.
Proof.
  unfold hashPairs. destruct (_ <? _)%nat; [done|].
  rewrite <- !list_fmap_compose. by apply list_fmap_ext.
Qed.

Lemma NoDup_size_hash_keys ro db :
  (∀ hash ids, Hashes db !! hash = Some ids → dashFree hash = true) →
  NoDup (mjoin (hashPairs ro db <$> range ro (Hashes db))).*1.
Proof.
  intros Hdash. rewrite fst_mjoin.
  apply (NoDup_mjoin_tagged fst beforeDash).
  - apply NoDup_range_keys.
  - intros e _. rewrite hashPairs_keys. destruct (_ <? _)%nat; [constructor|].
    apply NoDup_fmap_2; [apply _|apply NoDup_range_keys].
  - intros [hash ids] k Hin%elem_of_range. rewrite hashPairs_keys. cbn [fst snd].
    destruct (_ <? _)%nat; [by intros ?%elem_of_nil|].
    intros (size & -> & _)%list_elem_of_fmap. apply beforeDash_groupID. by eapply Hdash.
Qed.

Lemma elem_of_hashPairs ro db key og :
  (key, og) ∈ mjoin (hashPairs ro db <$> range ro (Hashes db))
  ↔ ∃ hash ids size,
      Hashes db !! hash = Some ids ∧ (2 ≤ length ids)%nat
      ∧ (∃ id, id ∈ ids ∧ sizeOf db id = size)
      ∧ key = groupID hash size ∧ og = Some (sizeGroup db ids size).
Proof.
  rewrite list_elem_of_join. split.
  - intros (kvs & Hin & ([hash ids] & -> & He%elem_of_range)%list_elem_of_fmap).
    unfold hashPairs in Hin. cbn [fst snd] in Hin.
    destruct (Nat.ltb_spec (length ids) 2); [by apply elem_of_nil in Hin|].
    apply list_elem_of_fmap in Hin as ([size sizeIDs] & [= -> ->] & Hs%elem_of_range).
    rewrite partitionBySize_lookup in Hs. case_bool_decide as Hnil; [done|].
    injection Hs as <-. exists hash, ids, size. split; [done|]. split; [done|].
    split; [|done].
    destruct (filter _ ids) as [|id rest] eqn:Hf; [done|]. exists id.
    assert (Hid : id ∈ filter (λ id, sizeOf db id = size) ids)
      by (rewrite Hf; apply list_elem_of_here).
    apply list_elem_of_filter in Hid as [? ?]. done.
  - intros (hash & ids & size & Hh & Hlen & (id & Hid & Hsize) & -> & ->).
    exists (hashPairs ro db (hash, ids)). split.
    + unfold hashPairs. cbn [fst snd].
      destruct (Nat.ltb_spec (length ids) 2); [lia|].
      apply list_elem_of_fmap.
      exists (size, filter (λ id, sizeOf db id = size) ids). split; [done|].
      apply elem_of_range. rewrite partitionBySize_lookup.
      rewrite bool_decide_eq_false_2; [done|].
      intros Hnil. assert (Hin : id ∈ filter (λ id, sizeOf db id = size) ids)
        by (by apply list_elem_of_filter).
      rewrite Hnil in Hin. by apply elem_of_nil in Hin.
    + apply list_elem_of_fmap. exists (hash, ids). split; [done|]. by apply elem_of_range.
Qed.

(** X14.  The size-and-hash pass, for a store whose hash keys contain no
    ['-'] (hexadecimal digests): there is one candidate group for every
    bucket of [Hashes] with at least two ids and every size that
    [Files] gives to some id of the bucket, stored under "hash-size"; it
    holds the ids of the bucket with that size, in ascending order, and no
    token to highlight.  There are no other groups, whatever the iteration
    order; a bucket of ids with two different sizes gives two groups of one
    id. *)
Theorem sizeAndHashGroups_lookup (ro : RangeOrder) (db : DB) (key : string) (g : SearchGroup) :
  (∀ hash ids, Hashes db !! hash = Some ids → dashFree hash = true) →
  (sizeAndHashGroups ro db !! key = Some g
   ↔ ∃ hash ids size,
       Hashes db !! hash = Some ids ∧ (2 ≤ length ids)%nat
       ∧ (∃ id, id ∈ ids ∧ sizeOf db id = size)
       ∧ key = groupID hash size ∧ g = sizeGroup db ids size)
  ∧ ∀ ids size,
      StronglySorted path_le (GroupIDs (sizeGroup db ids size))
      ∧ GroupIDs (sizeGroup db ids size) ≡ₚ filter (λ id, sizeOf db id = size) ids.
Proof.
  intros Hdash. split.
  2:{ intros ids size. split; [apply sort_paths_sorted|apply sort_paths_perm]. }
  pose proof (NoDup_size_hash_keys ro db Hdash) as Hnd.
  rewrite sizeAndHashGroups_put, foldl_put_lookup, lookup_empty by done.
  split.
  - destruct (list_to_map _ !! key) as [[g'|]|] eqn:Hl; intros [= <-].
    apply elem_of_list_to_map_2, elem_of_hashPairs in Hl
      as (hash & ids & size & Hh & Hlen & Hid & Hkey & [= ->]).
    by exists hash, ids, size.
  - intros (hash & ids & size & Hh & Hlen & Hid & Hkey & ->).
    assert (Hin : (key, Some (sizeGroup db ids size))
                  ∈ mjoin (hashPairs ro db <$> range ro (Hashes db))).
    { apply elem_of_hashPairs. by exists hash, ids, size. }
    apply elem_of_list_to_map in Hin; [|done]. by rewrite Hin.
Qed.

Lemma sizeAndHashGroups_lookup_witness :
  (∀ hash ids, Hashes testDB !! hash = Some ids → dashFree hash = true)
  ∧ (sizeAndHashGroups natural_order testDB !! "464f1ce84fed3d6837db4b810462f8de-756381984"
     = Some (mkGroup ["bambam/baz.txt"; "bambam/foo-756381984.txt"] [] SizeAndHash)
     ↔ ∃ hash ids size,
         Hashes testDB !! hash = Some ids ∧ (2 ≤ length ids)%nat
         ∧ (∃ id, id ∈ ids ∧ sizeOf testDB id = size)
         ∧ "464f1ce84fed3d6837db4b810462f8de-756381984" = groupID hash size
         ∧ mkGroup ["bambam/baz.txt"; "bambam/foo-756381984.txt"] [] SizeAndHash
           = sizeGroup testDB ids size).
Proof.
  assert (Hdash : ∀ hash ids, Hashes testDB !! hash = Some ids → dashFree hash = true).
  { intros hash ids Hl%elem_of_map_to_list.
    assert (Heq : map_to_list (Hashes testDB) = testHashes) by (vm_compute; reflexivity).
    rewrite Heq in Hl. clear Heq. unfold testHashes in Hl.
    repeat (apply elem_of_cons in Hl as [[= -> ->]|Hl]; [reflexivity|]).
    destruct (proj1 (elem_of_nil _) Hl). }
  split.
  - exact Hdash.
  - pose proof (sizeAndHashGroups_lookup natural_order testDB
                  "464f1ce84fed3d6837db4b810462f8de-756381984"
                  (mkGroup ["bambam/baz.txt"; "bambam/foo-756381984.txt"] [] SizeAndHash)
                  Hdash) as [H _].
    exact H.
Defined.

(** ** The highlight renderer *)

(** *** Strings *)

Lemma append_cons (c : ascii) (s t : string) : String c s +:+ t = String c (s +:+ t).
Proof. reflexivity. Qed.

Lemma append_nil_l (s : string) : "" +:+ s = s.
Proof. reflexivity. Qed.





Lemma substring_app (s : string) (n k1 k2 : nat) :
  substring n (k1 + k2) s = substring n k1 s +:+ substring (n + k1) k2 s.
Proof.
  revert n k1. induction s as [|c s IH]; intros n k1.
  - destruct n, k1, k2; reflexivity.
  - destruct n as [|n].
    + destruct k1 as [|k1]; [reflexivity|]. simpl. by rewrite append_cons, (IH 0%nat k1).
    + simpl. apply IH.
Qed.




Lemma slice_slice (s : string) (a b c : nat) :
  (a ≤ b ≤ c)%nat → slice s a b +:+ slice s b c = slice s a c.
Proof.
  intros Habc. unfold slice. replace (c - a)%nat with ((b - a) + (c - b))%nat by lia.
  rewrite substring_app. by replace (a + (b - a))%nat with b by lia.
Qed.






(** *** The occurrence that is highlighted *)


(** *** The loop *)






(** *** The three-way policy *)


Global Instance start_le_trans : Transitive start_le.
Proof. unfold start_le. intros a b c. lia. Qed.









(** ** The search terms of a path *)

Lemma lower_ascii_idem c : lower_ascii (lower_ascii c) = lower_ascii c.
Proof. destruct c as [[] [] [] [] [] [] [] []]; vm_compute; reflexivity. Qed.

Lemma lower_ascii_dash c : Ascii.eqb (lower_ascii c) "-" = Ascii.eqb c "-".
Proof. destruct c as [[] [] [] [] [] [] [] []]; vm_compute; reflexivity. Qed.

Lemma lower_ascii_slash c : Ascii.eqb (lower_ascii c) "/" = Ascii.eqb c "/".
Proof. destruct c as [[] [] [] [] [] [] [] []]; vm_compute; reflexivity. Qed.

Lemma isSpace_lower c : isSpace (lower_ascii c) = isSpace c.
Proof. destruct c as [[] [] [] [] [] [] [] []]; vm_compute; reflexivity. Qed.

Lemma ToLower_idem s : ToLower (ToLower s) = ToLower s.
Proof. induction s as [|c s IH]; [done|]. cbn. by rewrite lower_ascii_idem, IH. Qed.


Lemma trimLeft_ToLower s : trimLeft (ToLower s) = ToLower (trimLeft s).
Proof.
  induction s as [|c s IH]; [done|]. cbn. rewrite isSpace_lower.
  by destruct (isSpace c).
Qed.

Lemma trimRight_ToLower s : trimRight (ToLower s) = ToLower (trimRight s).
Proof.
  induction s as [|c s IH]; [done|]. cbn. rewrite IH, isSpace_lower.
  destruct (trimRight s); cbn; [by destruct (isSpace c)|done].
Qed.

Lemma TrimSpace_ToLower s : TrimSpace (ToLower s) = ToLower (TrimSpace s).
Proof. unfold TrimSpace. by rewrite trimLeft_ToLower, trimRight_ToLower. Qed.

Lemma trimRight_idem s : trimRight (trimRight s) = trimRight s.
Proof.
  induction s as [|c s IH]; [done|]. cbn.
  destruct (trimRight s) as [|c' r] eqn:Hr.
  - destruct (isSpace c) eqn:Hc; [done|]. cbn. by rewrite Hc.
  - cbn [trimRight] in *. by rewrite IH.
Qed.

Lemma trimLeft_fixed s :
  match s with String c _ => isSpace c = false | EmptyString => True end → trimLeft s = s.
Proof. destruct s as [|c s]; [done|]. cbn. by intros ->. Qed.

Lemma trimLeft_head s :
  match trimLeft s with String c _ => isSpace c = false | EmptyString => True end.
Proof. induction s as [|c s IH]; [done|]. cbn. destruct (isSpace c) eqn:Hc; [done|]. cbn. done. Qed.

Lemma trimRight_head s :
  match s with String c _ => isSpace c = false | EmptyString => True end →
  match trimRight s with String c _ => isSpace c = false | EmptyString => True end.
Proof.
  destruct s as [|c s]; [done|]. cbn. intros Hc.
  destruct (trimRight s); [by rewrite Hc|done].
Qed.

Lemma TrimSpace_idem s : TrimSpace (TrimSpace s) = TrimSpace s.
Proof.
  unfold TrimSpace.
  rewrite (trimLeft_fixed (trimRight (trimLeft s))) by apply trimRight_head, trimLeft_head.
  apply trimRight_idem.
Qed.

Lemma hasByte_ToLower c s :
  (∀ c', Ascii.eqb (lower_ascii c') c = Ascii.eqb c' c) → hasByte c (ToLower s) = hasByte c s.
Proof. intros Hc. induction s as [|c' s IH]; [done|]. cbn. by rewrite Hc, IH. Qed.

Lemma hasByte_trimLeft c s : hasByte c s = false → hasByte c (trimLeft s) = false.
Proof.
  induction s as [|c' s IH]; [done|]. cbn. intros [Hc Hs]%orb_false_elim.
  destruct (isSpace c'); [by apply IH|]. cbn. by rewrite Hc, Hs.
Qed.

Lemma hasByte_trimRight c s : hasByte c s = false → hasByte c (trimRight s) = false.
Proof.
  induction s as [|c' s IH]; [done|]. cbn. intros [Hc Hs]%orb_false_elim.
  specialize (IH Hs). destruct (trimRight s) as [|c'' r].
  - destruct (isSpace c'); [done|]. cbn. by rewrite Hc.
  - cbn [hasByte] in *. by rewrite Hc, IH.
Qed.

Lemma Split_nonempty sep s : Split sep s ≠ [].
Proof.
  destruct s as [|c s]; [done|]. cbn. destruct (Ascii.eqb c sep); [done|].
  by destruct (Split sep s).
Qed.

Lemma Split_ToLower sep s :
  (∀ c, Ascii.eqb (lower_ascii c) sep = Ascii.eqb c sep) →
  Split sep (ToLower s) = ToLower <$> Split sep s.
Proof.
  intros Hsep. induction s as [|c s IH]; [done|]. cbn. rewrite Hsep, IH.
  destruct (Ascii.eqb c sep); [done|]. by destruct (Split sep s).
Qed.

Lemma Split_hasByte sep s : Forall (λ piece, hasByte sep piece = false) (Split sep s).
Proof.
  induction s as [|c s IH]; [by repeat constructor|]. cbn.
  destruct (Ascii.eqb c sep) eqn:Hc; [by constructor|].
  destruct (Split sep s) as [|piece rest].
  - repeat constructor. cbn. by rewrite Hc.
  - apply Forall_cons in IH as [Hp Hrest]. constructor; [|done]. cbn. by rewrite Hc, Hp.
Qed.

Lemma Split_keeps_free sep c s :
  hasByte c s = false → Forall (λ piece, hasByte c piece = false) (Split sep s).
Proof.
  induction s as [|c' s IH]; intros Hs; [by repeat constructor|].
  cbn in Hs. apply orb_false_elim in Hs as [Hc Hs]. specialize (IH Hs). cbn.
  destruct (Ascii.eqb c' sep); [by constructor|].
  destruct (Split sep s) as [|piece rest].
  - repeat constructor. cbn. by rewrite Hc.
  - apply Forall_cons in IH as [Hp Hrest]. constructor; [|done]. cbn. by rewrite Hc, Hp.
Qed.

Lemma Split_whole sep s : hasByte sep s = false → Split sep s = [s].
Proof.
  induction s as [|c s IH]; [done|]. cbn. intros [Hc Hs]%orb_false_elim.
  by rewrite Hc, IH.
Qed.

Lemma Split_app sep a b :
  ∃ l, l ≠ [] ∧ Split sep (a +:+ String sep b) = l ++ Split sep b.
Proof.
  induction a as [|c a (l & Hl & IH)].
  - exists [""]. split; [done|]. rewrite append_nil_l. cbn. by rewrite Ascii.eqb_refl.
  - rewrite append_cons. cbn. rewrite IH. destruct (Ascii.eqb c sep).
    + by exists ("" :: l).
    + destruct l as [|piece l]; [done|]. by exists (String c piece :: l).
Qed.

Lemma last_fmap {A B} (f : A → B) (l : list A) (d : A) :
  List.last (f <$> l) (f d) = f (List.last l d).
Proof. induction l as [|x [|y l] IH]; done. Qed.

Lemma last_Forall {A} (P : A → Prop) (l : list A) (d : A) :
  l ≠ [] → Forall P l → P (List.last l d).
Proof.
  induction l as [|x [|y l] IH]; [done|..]; intros _ [Hx Hl]%Forall_cons; [done|].
  by apply IH.
Qed.

Lemma last_app_r {A} (l1 l2 : list A) (d : A) :
  l2 ≠ [] → List.last (l1 ++ l2) d = List.last l2 d.
Proof.
  intros Hne. induction l1 as [|x l1 IH]; [done|].
  change ((x :: l1) ++ l2) with (x :: (l1 ++ l2)).
  destruct (l1 ++ l2) eqn:Happ; [|done].
  apply app_eq_nil in Happ as [_ ->]. done.
Qed.

Lemma fileName_no_slash path : hasByte "/" (filepath_Split path).2 = false.
Proof.
  unfold filepath_Split. cbn [snd].
  apply (last_Forall (λ piece, hasByte "/" piece = false)); [apply Split_nonempty|apply Split_hasByte].
Qed.

Lemma fileName_ToLower path : (filepath_Split (ToLower path)).2 = ToLower (filepath_Split path).2.
Proof.
  unfold filepath_Split. cbn [snd].
  rewrite (Split_ToLower _ _ lower_ascii_slash). apply (last_fmap ToLower _ "").
Qed.

Lemma fileName_join dir name :
  hasByte "/" name = false → (filepath_Split (dir +:+ "/" +:+ name)).2 = name.
Proof.
  intros Hname. unfold filepath_Split. cbn [snd].
  change ("/" +:+ name) with (String "/" name).
  destruct (Split_app "/" dir name) as (l & _ & ->).
  rewrite last_app_r by apply Split_nonempty. by rewrite Split_whole.
Qed.

(** X17.  [pathToSearchTerms] always yields at least one term, and every
    term is in lower case, has no white space around it and contains
    neither the separator of terms nor the separator of directories. *)
Theorem pathToSearchTerms_terms (filePath : string) :
  pathToSearchTerms filePath ≠ [] ∧ Forall isTerm (pathToSearchTerms filePath).
Proof.
  unfold pathToSearchTerms. cbn zeta. split.
  - intros Hnil%fmap_nil_inv. by apply Split_nonempty in Hnil.
  - apply Forall_fmap, Forall_forall. intros piece Hin.
    assert (Hd : hasByte "-" piece = false).
    { exact (proj1 (Forall_forall _ _) (Split_hasByte "-" _) piece Hin). }
    assert (Hs : hasByte "/" piece = false).
    { exact (proj1 (Forall_forall _ _)
               (Split_keeps_free "-" "/" _ (fileName_no_slash filePath)) piece Hin). }
    cbn. unfold isTerm. split; [apply ToLower_idem|].
    split; [by rewrite TrimSpace_ToLower, TrimSpace_idem|].
    split.
    + rewrite (hasByte_ToLower _ _ lower_ascii_dash). unfold TrimSpace.
      by apply hasByte_trimRight, hasByte_trimLeft.
    + rewrite (hasByte_ToLower _ _ lower_ascii_slash). unfold TrimSpace.
      by apply hasByte_trimRight, hasByte_trimLeft.
Qed.

(** X18.  The search terms of a path do not depend on the case of its
    letters: the lowered path has the same terms. *)
Theorem pathToSearchTerms_ToLower (filePath : string) :
  pathToSearchTerms (ToLower filePath) = pathToSearchTerms filePath.
Proof.
  unfold pathToSearchTerms. cbn zeta.
  rewrite fileName_ToLower, (Split_ToLower _ _ lower_ascii_dash), <- list_fmap_compose.
  apply list_fmap_ext. intros _ piece _. cbn.
  by rewrite TrimSpace_ToLower, ToLower_idem.
Qed.

(** X19.  The search terms of a path are those of its file name: the
    directory in front of the last separator plays no part. *)
Theorem pathToSearchTerms_file_name (dir name : string) :
  hasByte "/" name = false →
  pathToSearchTerms (dir +:+ "/" +:+ name) = pathToSearchTerms name
  ∧ pathToSearchTerms name = (λ term, ToLower (TrimSpace term)) <$> Split "-" name.
Proof.
  intros Hname. unfold pathToSearchTerms. cbn zeta. rewrite fileName_join by done.
  assert (Hwhole : (filepath_Split name).2 = name).
  { unfold filepath_Split. cbn [snd]. by rewrite Split_whole. }
  by rewrite Hwhole.
Qed.

Lemma pathToSearchTerms_file_name_witness :
  hasByte "/" "2021.12.31-DSC_5070-RR.jpg" = false
  ∧ pathToSearchTerms ("/home/me/My Photos" +:+ "/" +:+ "2021.12.31-DSC_5070-RR.jpg")
    = pathToSearchTerms "2021.12.31-DSC_5070-RR.jpg"
  ∧ pathToSearchTerms "2021.12.31-DSC_5070-RR.jpg"
    = (λ term, ToLower (TrimSpace term)) <$> Split "-" "2021.12.31-DSC_5070-RR.jpg".
Proof.
  split; [vm_compute; reflexivity|].
  apply (pathToSearchTerms_file_name "/home/me/My Photos" "2021.12.31-DSC_5070-RR.jpg").
  vm_compute; reflexivity.
Defined.

(** ** Statistics *)

Lemma countMultiple_notSingle {K} (buckets : list (K * list string)) :
  countMultiple buckets = length (notSingle buckets).
Proof.
  unfold countMultiple, notSingle.
  assert (Hgen : ∀ n,
    foldl (λ n (entry : K * list string), if (length entry.2 =? 1)%nat then n else S n) n buckets
    = (n + length (filter (λ entry : K * list string, length entry.2 ≠ 1%nat) buckets))%nat).
  { induction buckets as [|entry buckets IH]; intros n; cbn [foldl]; [cbn; lia|].
    rewrite IH. destruct (Nat.eqb_spec (length entry.2) 1) as [Heq|Hne].
    - by rewrite filter_cons_False by (intros ?; done).
    - rewrite filter_cons_True by done. cbn. lia. }
  apply Hgen.
Qed.

Lemma countMultiple_range `{Countable K} (ro : RangeOrder) (m : gmap K (list string)) :
  countMultiple (range ro m) = length (notSingle (map_to_list m)).
Proof. rewrite countMultiple_notSingle. unfold notSingle. by rewrite range_perm. Qed.

Lemma bucket_bounds (n : nat) (k : Z) :
  (Z.of_nat n ÷ 5 = k ↔ 5 * k ≤ Z.of_nat n < 5 * k + 5)%Z.
Proof. Z.to_euclidean_division_equations; lia. Qed.

Lemma addTermStat_lookup minLength stats entry k :
  addTermStat minLength stats entry !! k
  = if decide (counted minLength entry
               ∧ (5 * k ≤ Z.of_nat (String.length entry.1) < 5 * k + 5)%Z)
    then Some (default 0 (stats !! k) + 1)%Z else stats !! k.
Proof.
  unfold addTermStat, counted. cbn zeta.
  destruct (Nat.ltb_spec (length entry.2) 2) as [Hlen|Hlen].
  { rewrite decide_False by lia. done. }
  destruct (Z.ltb_spec (Z.of_nat (String.length entry.1)) minLength) as [Hmin|Hmin].
  { rewrite decide_False by lia. done. }
  destruct (decide (Z.of_nat (String.length entry.1) ÷ 5 = k)%Z) as [Hk|Hk].
  - rewrite Hk, lookup_insert_eq. apply bucket_bounds in Hk. by rewrite decide_True.
  - rewrite lookup_insert_ne by done. rewrite decide_False; [done|].
    intros (_ & Hb%bucket_bounds). done.
Qed.

Lemma foldl_addTermStat minLength (buckets : list (string * list string)) stats k :
  let hits := filter (λ entry : string * list string,
                        counted minLength entry
                        ∧ (5 * k ≤ Z.of_nat (String.length entry.1) < 5 * k + 5)%Z) buckets in
  default 0%Z (foldl (addTermStat minLength) stats buckets !! k)
  = (default 0 (stats !! k) + Z.of_nat (length hits))%Z
  ∧ (is_Some (foldl (addTermStat minLength) stats buckets !! k)
     ↔ is_Some (stats !! k) ∨ (0 < length hits)%nat).
Proof.
  cbn zeta. revert stats. induction buckets as [|entry buckets IH]; intros stats; cbn [foldl].
  { rewrite filter_nil. cbn [length]. split; [lia|]. split; [by left|]. intros [?|?]; [done|lia]. }
  destruct (IH (addTermStat minLength stats entry)) as [IH1 IH2].
  rewrite IH1, IH2, addTermStat_lookup. destruct (decide _) as [Hin|Hout].
  - rewrite filter_cons_True by done. cbn [default from_option id length]. split; [lia|].
    split; [intros _; right; lia|intros _; by left].
  - rewrite filter_cons_False by done. done.
Qed.

Lemma searchTermStats_lookup (ro : RangeOrder) (db : DB) (minLength k : Z) :
  let stats := foldl (addTermStat minLength) ∅ (range ro (SearchTerms db)) in
  default 0%Z (stats !! k) = Z.of_nat (length (termsIn db minLength k))
  ∧ (is_Some (stats !! k) ↔ termsIn db minLength k ≠ []).
Proof.
  cbn zeta.
  destruct (foldl_addTermStat minLength (range ro (SearchTerms db)) ∅ k) as [H1 H2].
  cbn zeta in H1, H2. rewrite lookup_empty in H1, H2. cbn [default] in H1.
  assert (Hlen : length (filter (λ entry : string * list string,
                    counted minLength entry
                    ∧ (5 * k ≤ Z.of_nat (String.length entry.1) < 5 * k + 5)%Z)
                    (range ro (SearchTerms db)))
                 = length (termsIn db minLength k)).
  { unfold termsIn. by rewrite range_perm. }
  rewrite Hlen in H1, H2. split; [by rewrite H1|]. rewrite H2. split.
  - intros [[? [=]]|Hpos] Hnil. rewrite Hnil in Hpos. cbn in Hpos. lia.
  - intros Hne. right. destruct (termsIn db minLength k); [done|cbn; lia].
Qed.

Lemma Sorted_le_NoDup (l : list Z) : Sorted Z.le l → NoDup l → StronglySorted Z.lt l.
Proof.
  intros Hs%Sorted_StronglySorted Hnd; [|intros x y z; lia].
  induction Hs as [|x l Hs IH Hall]; [constructor|].
  apply NoDup_cons in Hnd as [Hx Hnd]. constructor; [by apply IH|].
  apply Forall_forall. intros y Hy.
  pose proof (proj1 (Forall_forall _ _) Hall y Hy) as Hle.
  assert (x ≠ y) by (intros ->; done). lia.
Qed.

Lemma StronglySorted_lt_NoDup (l : list Z) : StronglySorted Z.lt l → NoDup l.
Proof.
  induction 1 as [|x l Hs IH Hall]; constructor; [|done].
  intros Hx. pose proof (proj1 (Forall_forall _ _) Hall x Hx). lia.
Qed.

Lemma statKeys_sorted (ro : RangeOrder) (stats : gmap Z Z) :
  StronglySorted Z.lt (insertion_sort Z.ltb (range ro stats).*1)
  ∧ ∀ k, k ∈ insertion_sort Z.ltb (range ro stats).*1 ↔ is_Some (stats !! k).
Proof.
  split.
  - apply Sorted_le_NoDup.
    + apply insertion_sort_Sorted.
      * intros x y Hlt%Z.ltb_lt. lia.
      * intros x y Hge%Z.ltb_ge. lia.
    + rewrite insertion_sort_perm. apply NoDup_range_keys.
  - intros k. rewrite insertion_sort_perm, list_elem_of_fmap. split.
    + intros ([k' v] & -> & Hin%elem_of_range). by exists v.
    + intros [v Hv]. exists (k, v). split; [done|]. by apply elem_of_range.
Qed.

Lemma searchTermStats_spec (ro : RangeOrder) (db : DB) (minLength : Z) :
  ∃ keys,
    searchTermStats ro db minLength
    = [OutStatsBlank; OutDistribution]
      ++ ((λ k, OutTermsOfLength (k * 5) (Z.of_nat (length (termsIn db minLength k)))) <$> keys)
    ∧ StronglySorted Z.lt keys
    ∧ ∀ k, k ∈ keys ↔ termsIn db minLength k ≠ [].
Proof.
  unfold searchTermStats. cbn zeta.
  set (stats := foldl (addTermStat minLength) ∅ (range ro (SearchTerms db))).
  destruct (statKeys_sorted ro stats) as [Hs Hk].
  exists (insertion_sort Z.ltb (range ro stats).*1). split; [|split; [done|]].
  - f_equal. apply list_fmap_ext. intros _ k _. f_equal.
    apply (searchTermStats_lookup ro db minLength k).
  - intros k. rewrite Hk. apply (searchTermStats_lookup ro db minLength k).
Qed.

(** X20.  The distribution that [searchTermStats] prints.  After the blank
    line and the heading there is one line per [k] for which some search
    term with at least two ids and at least [minLength] bytes has its length
    in [[5 * k, 5 * k + 5)]; the line shows [5 * k] and the number of such
    terms, and the lines are in strictly ascending order of [k].  Terms with
    fewer than two ids or fewer than [minLength] bytes are not counted. *)
Theorem searchTermStats_distribution (ro : RangeOrder) (db : DB) (minLength : Z) :
  ∃ keys,
    searchTermStats ro db minLength
    = [OutStatsBlank; OutDistribution]
      ++ ((λ k, OutTermsOfLength (k * 5) (Z.of_nat (length (termsIn db minLength k)))) <$> keys)
    ∧ StronglySorted Z.lt keys
    ∧ (∀ k, k ∈ keys ↔ termsIn db minLength k ≠ [])
    ∧ ∀ k term ids, (term, ids) ∈ termsIn db minLength k ↔
        SearchTerms db !! term = Some ids
        ∧ (2 ≤ length ids)%nat ∧ (minLength ≤ Z.of_nat (String.length term))%Z
        ∧ (5 * k ≤ Z.of_nat (String.length term) < 5 * k + 5)%Z.
Proof.
  destruct (searchTermStats_spec ro db minLength) as (keys & Heq & Hs & Hk).
  exists keys. split; [done|]. split; [done|]. split; [done|].
  intros k term ids. unfold termsIn, counted.
  rewrite list_elem_of_filter, elem_of_map_to_list. cbn [fst snd]. tauto.
Qed.

(** X21.  What [Stats] prints does not depend on the order in which the
    maps are ranged over.  Its first six lines are the sizes of the four
    maps and, for [Sizes] and for [Hashes], the number of buckets that do
    not hold exactly one id. *)
Theorem Stats_any_order (ro ro' : RangeOrder) (db : DB) (minLength : Z) :
  Stats ro db minLength = Stats ro' db minLength
  ∧ take 6 (Stats ro db minLength)
    = [OutTotalRecords (size (Files db)); OutTotalSizes (size (Sizes db));
       OutTotalSearchTerms (size (SearchTerms db)); OutTotalHashes (size (Hashes db));
       OutSizesMultiple (length (notSingle (map_to_list (Sizes db))));
       OutHashesMultiple (length (notSingle (map_to_list (Hashes db))))].
Proof.
  assert (Hst : searchTermStats ro db minLength = searchTermStats ro' db minLength).
  { destruct (searchTermStats_spec ro db minLength) as (keys & -> & Hs & Hk).
    destruct (searchTermStats_spec ro' db minLength) as (keys' & -> & Hs' & Hk').
    f_equal. f_equal. apply (StronglySorted_unique_strong Z.lt); [intros; lia|done|done|].
    apply NoDup_Permutation.
    - by apply StronglySorted_lt_NoDup.
    - by apply StronglySorted_lt_NoDup.
    - intros k. by rewrite Hk, Hk'. }
  unfold Stats, sizeStats, hashStats. rewrite !countMultiple_range, Hst. done.
Qed.

(** ** The catalogue that is written back *)

Lemma Atoi_range (s : string) (z : Z) : Atoi s = Some z → int_range z.
Proof.
  unfold Atoi, int_range. destruct s as [|c rest]; [done|].
  destruct (Ascii.eqb c "-").
  - destruct (parseDigits rest) as [n|]; [|done]. cbn.
    destruct (N.leb_spec n (2 ^ 63)) as [Hn|Hn]; [|done]. intros [= <-]. lia.
  - destruct (parseDigits _) as [n|]; [|done]. cbn.
    destruct (N.ltb_spec n (2 ^ 63)) as [Hn|Hn]; [|done]. intros [= <-]. lia.
Qed.

Lemma add_wf db p s h ts :
  int_range s → store_wf (Files db) → store_wf (Files (add db p s h ts)).
Proof.
  intros Hs Hwf id r. rewrite Files_add. destruct (decide (id = p)) as [->|Hne].
  - rewrite lookup_insert_eq. by intros [= <-].
  - rewrite lookup_insert_ne by done. apply Hwf.
Qed.

Lemma store_wf_subseteq (m m' : gmap string FileRecord) : m' ⊆ m → store_wf m → store_wf m'.
Proof. intros Hsub Hwf id r Hr. apply Hwf. by eapply lookup_weaken. Qed.

Lemma handleRecords_wf records db db' :
  handleRecords db records = Ok db' → store_wf (Files db) → store_wf (Files db').
Proof.
  revert db. induction records as [|rec records IH]; intros db; cbn [handleRecords].
  { by intros [= <-]. }
  destruct (handleRecord_cases db rec) as [[_ ->]|[(_ & _ & ->)|(_ & size & Hsize & ->)]];
    [done|..]; cbn [bind]; intros Hr Hwf; (eapply IH; [exact Hr|]).
  - done.
  - apply add_wf; [by eapply Atoi_range|done].
Qed.

Lemma scanned_Size fs f r : scanned fs f = Some r → Stat fs f = Some (Size r).
Proof.
  unfold scanned. destruct (Stat fs f) as [s|]; [|done]. cbn.
  destruct (hashFile fs f _); [|done]. by intros [= <-].
Qed.

Lemma handleMatches_wf ro db fs root files :
  (∀ filename size, Stat fs filename = Some size → int_range size) →
  store_wf (Files db) → store_wf (Files (handleMatches ro db fs root files)).
Proof.
  intros Hfs Hwf. rewrite handleMatches_unfold. cbn zeta. rewrite Files_print, Files_setFiles.
  eapply store_wf_subseteq; [apply removeMissing_subseteq|]. cbn [fst].
  intros id r. rewrite addFound_lookup.
  destruct (Files db !! id) as [r'|] eqn:Hr'.
  - intros [= <-]. by apply Hwf.
  - destruct (bool_decide _); [|done]. intros Hs. split; [by eapply scanned_Path|].
    eapply Hfs, scanned_Size, Hs.
Qed.

Lemma Scan_wf ro fs roots db :
  (∀ filename size, Stat fs filename = Some size → int_range size) →
  store_wf (Files db) → store_wf (Files (Scan ro db fs roots).1).
Proof.
  intros Hfs. revert db. induction roots as [|root roots IH]; intros db Hwf; [done|].
  cbn. destruct (collectFiles fs root) as [files|]; [|done].
  by apply IH, handleMatches_wf.
Qed.

Lemma step_wf ro db op db' :
  ranged op → step ro db op = Ok db' → store_wf (Files db) → store_wf (Files db').
Proof.
  destruct op as [[records|]|fs roots|w minLength]; cbn.
  - intros _. apply handleRecords_wf.
  - done.
  - intros Hfs [= <-]. by apply Scan_wf.
  - intros _ [= <-]. apply store_wf_subseteq, shrinks_Duplicates.
Qed.

Lemma run_wf ro ops db0 db :
  Forall ranged ops → run ro db0 ops = Ok db →
  store_wf (Files db0) ∧ index_complete db0 → store_wf (Files db) ∧ index_complete db.
Proof.
  intros Hops. revert db0. induction Hops as [|op ops Hop Hops IH]; intros db0; cbn.
  - by intros [= <-].
  - destruct (step ro db0 op) as [db1| |] eqn:Hs; try done. cbn.
    intros Hrun [Hwf Hc]. apply (IH db1 Hrun).
    split; [by eapply step_wf|by eapply step_complete].
Qed.

Lemma reloaded_complete db : index_complete db → reloaded <$> Files db = Files db.
Proof.
  intros Hc. apply map_eq. intros id. rewrite lookup_fmap.
  destruct (Files db !! id) as [r|] eqn:Hr; [|done]. cbn. f_equal.
  destruct (Hc id r Hr) as (Hp & Ht & _). destruct r as [p s h ts]. cbn in *.
  unfold reloaded. cbn. by rewrite Ht, Hp.
Qed.

(** X22.  Whatever sequence of loads, scans and duplicate resolutions a
    new store has gone through, the rows [Write] makes of it load again:
    [Load] of these rows into a new store neither panics nor exits, and
    [Files] is then the same map, record by record, search terms included.
    The sizes reported by [os.Stat] are Go [int]s. *)
Theorem written_catalogue_loads (ro ro' : RangeOrder) (ops : list Op) (db : DB) :
  Forall ranged ops →
  run ro NewDB ops = Ok db →
  store_wf (Files db)
  ∧ ∃ db', Load NewDB (Some (Write ro' db)) = Ok db' ∧ Files db' = Files db.
Proof.
  intros Hops Hrun.
  destruct (run_wf ro ops NewDB db Hops Hrun) as [Hwf Hc].
  { split; intros id r Hr; cbn in Hr; by rewrite lookup_empty in Hr. }
  split; [done|]. destruct (Load_Write ro' db Hwf) as (db' & Hload & Hfiles).
  exists db'. split; [done|]. by rewrite Hfiles, reloaded_complete.
Qed.

Lemma written_catalogue_loads_witness :
  Forall ranged scenarioOps
  ∧ run natural_order NewDB scenarioOps = Ok scenarioDB
  ∧ store_wf (Files scenarioDB)
  ∧ ∃ db', Load NewDB (Some (Write reverse_order scenarioDB)) = Ok db'
           ∧ Files db' = Files scenarioDB.
Proof.
  assert (Hrun : run natural_order NewDB scenarioOps = Ok scenarioDB)
    by (vm_compute; reflexivity).
  assert (Hops : Forall ranged scenarioOps).
  { unfold scenarioOps. constructor; [done|]. constructor; [|by repeat constructor].
    intros f z. cbn. unfold int_range. intros [= <-]. lia. }
  split; [exact Hops|]. split; [exact Hrun|].
  exact (written_catalogue_loads natural_order reverse_order scenarioOps scenarioDB Hops Hrun).
Defined.

(** ** Commands *)







